(** * SQLMesh core: context diff, macro evaluation, time filtering, cron units

    A shallow embedding of the planning core of the repository
    (sqlmesh/core/context_diff.py, sqlmesh/core/macros.py,
    sqlmesh/core/dialect.py and sqlmesh/core/model.py) together with the
    properties its specification states about it.

    Python objects that are mutated after they have been shared (the
    snapshot copies made by [ContextDiff.create]) live in an explicit heap
    and are named by references; everything that is only read is a value.
    Python exceptions are the [Raise] results of an error monad. *)

From Stdlib Require Import ZArith String List Ascii Bool Lia.
From stdpp Require Import base option list gmap strings pretty.

Set Default Proof Using "Type".
#[local] Set Warnings "-clear-no-such-hyp".
Open Scope string_scope.
Open Scope list_scope.

(** ** Exceptions *)

Inductive exn :=
| KeyError (key : string)
| IndexError
| StopIteration
| ValueError
| SQLMeshError (msg : string)
| MacroEvalError (msg : string)
| AttributeError
| TypeError
| RecursionError
| InvalidReference (r : nat).

Inductive result (A : Type) :=
| Ok (a : A)
| Raise (e : exn).
Arguments Ok {A} a.
Arguments Raise {A} e.

Global Instance result_ret : MRet result := fun A a => Ok a.
Global Instance result_bind : MBind result := fun A B f m =>
  match m with
  | Ok a => f a
  | Raise e => Raise e
  end.

Definition of_option {A} (e : exn) (o : option A) : result A :=
  match o with
  | Some a => Ok a
  | None => Raise e
  end.

(** ** sqlmesh.core.snapshot and sqlmesh.core.environment *)

Module snapshot.

(** Modelled from the spec: the module sqlmesh/core/snapshot.py is not
    part of the sources at hand.  A fingerprint is the triple
    (data_hash, metadata_hash, parent_data_hash). *)
Record SnapshotFingerprint := mkFingerprint {
  data_hash : string;
  metadata_hash : string;
  parent_data_hash : string
}.

Global Instance fingerprint_eq_dec : EqDecision SnapshotFingerprint.
Proof. solve_decision. Defined.

(** Modelled from the spec: snapshot_id = (name, fingerprint). *)
Record SnapshotId := mkSnapshotId {
  sid_name : string;
  sid_fingerprint : SnapshotFingerprint
}.

Global Instance snapshot_id_eq_dec : EqDecision SnapshotId.
Proof. solve_decision. Defined.

(** Modelled from the spec: an entry of a version history carries the
    fingerprint it was built from and the physical version. *)
Record SnapshotDataVersion := mkDataVersion {
  dv_fingerprint : SnapshotFingerprint;
  dv_version : string
}.

Global Instance data_version_eq_dec : EqDecision SnapshotDataVersion.
Proof. solve_decision. Defined.

(** Modelled from the spec: what an environment stores per model.  The
    attribute [all_versions] is read by the diff and is kept as stored. *)
Record SnapshotTableInfo := mkTableInfo {
  info_name : string;
  info_fingerprint : SnapshotFingerprint;
  info_version : string;
  all_versions : list SnapshotDataVersion
}.

Definition info_snapshot_id (i : SnapshotTableInfo) : SnapshotId :=
  mkSnapshotId (info_name i) (info_fingerprint i).

(** Modelled from the spec: the fields of a snapshot the diff reads or
    writes. *)
Record Snapshot := mkSnapshot {
  name : string;
  fingerprint : SnapshotFingerprint;
  version : string;
  previous_versions : list SnapshotDataVersion;
  indirect_versions : list (string * list SnapshotDataVersion);
  created_ts : Z
}.

Global Instance snapshot_eq_dec : EqDecision Snapshot.
Proof. solve_decision. Defined.

Definition snapshot_id (s : Snapshot) : SnapshotId :=
  mkSnapshotId (name s) (fingerprint s).

(** previous_version: the last entry of previous_versions, if any. *)
Definition previous_version (s : Snapshot) : option SnapshotDataVersion :=
  last (previous_versions s).

(** data_hash_matches compares only the data_hash component. *)
Definition data_hash_matches (s : Snapshot) (other : SnapshotDataVersion) : bool :=
  bool_decide (data_hash (fingerprint s) = data_hash (dv_fingerprint other)).

Definition with_previous_versions (vs : list SnapshotDataVersion) (s : Snapshot) : Snapshot :=
  mkSnapshot (name s) (fingerprint s) (version s) vs (indirect_versions s) (created_ts s).

Definition with_version (v : string) (s : Snapshot) : Snapshot :=
  mkSnapshot (name s) (fingerprint s) v (previous_versions s)
             (indirect_versions s) (created_ts s).

Section set_version.
(** Modelled from the spec: calling set_version without an argument
    assigns a fresh version; how it is derived from the snapshot's
    identity is left open. *)
Variable fresh_version : string -> SnapshotFingerprint -> string.

Definition set_version (v : option string) (s : Snapshot) : Snapshot :=
  with_version (default (fresh_version (name s) (fingerprint s)) v) s.
End set_version.

(** Modelled from the spec: sqlmesh/core/environment.py. *)
Record Environment := mkEnvironment {
  env_name : string;
  env_snapshots : list SnapshotTableInfo;
  plan_id : string
}.

End snapshot.

(** ** sqlmesh.core.context_diff *)

Module context_diff.
Import snapshot.

(** Snapshot objects are mutable and shared: they live in a heap and are
    passed around by reference.  [copy] allocates, attribute assignment
    overwrites a cell. *)
Abbreviation ref := nat (only parsing).
Abbreviation heap := (list Snapshot) (only parsing).

Definition deref (h : heap) (r : ref) : result Snapshot :=
  of_option (InvalidReference r) (h !! r).

Definition copy (h : heap) (s : Snapshot) : heap * ref := (h ++ [s], length h).

Definition assign (h : heap) (r : ref) (s : Snapshot) : heap := <[r := s]> h.

(** The state reader interface: environments are values, stored snapshots
    are objects. *)
Record StateReader := mkStateReader {
  get_environment : string -> option Environment;
  get_snapshots : list SnapshotId -> SnapshotId -> option ref
}.

Module ContextDiff.
Record t := mk {
  environment : string;
  added : gset string;
  removed : gset string;
  modified_snapshots : gmap string (ref * ref);
  snapshots : gmap string ref;
  new_snapshots : list ref;
  previous_plan_id : option string
}.
End ContextDiff.

(** Two diffs are compared field by field, and a field that holds
    snapshot objects is compared by the values of those objects: this is
    what a diff denotes in a given heap. *)
Module ContextDiffValue.
Record t := mk {
  environment : string;
  added : gset string;
  removed : gset string;
  modified_snapshots : gmap string (option Snapshot * option Snapshot);
  snapshots : gmap string (option Snapshot);
  new_snapshots : list (option Snapshot);
  previous_plan_id : option string
}.
End ContextDiffValue.

Definition value_of (h : heap) (d : ContextDiff.t) : ContextDiffValue.t :=
  ContextDiffValue.mk
    (ContextDiff.environment d) (ContextDiff.added d) (ContextDiff.removed d)
    ((fun p : nat * nat => (h !! p.1, h !! p.2)) <$> ContextDiff.modified_snapshots d)
    ((fun r : nat => h !! r) <$> ContextDiff.snapshots d)
    ((fun r : nat => h !! r) <$> ContextDiff.new_snapshots d)
    (ContextDiff.previous_plan_id d).

(** The local variables of [create] that its two loops update. *)
Record locals := mkLocals {
  objects : heap;
  merged_snapshots : gmap string ref;
  modified_snapshots : gmap string (ref * ref);
  new_snapshots : list ref;
  snapshot_remote_versions : gmap string (list SnapshotDataVersion * Z)
}.

(** existing_info = {info.name: info for info in ...}: a later entry of the
    same name replaces an earlier one. *)
Definition existing_info_of (infos : list SnapshotTableInfo) : gmap string SnapshotTableInfo :=
  foldl (fun m info => <[info_name info := info]> m) ∅ infos.

Definition keys {A} (items : list (string * A)) : gset string :=
  list_to_set (items.*1).

(** One entry of the comprehension that builds modified_info. *)
Definition modified_entry (h : heap) (existing_info : gmap string SnapshotTableInfo)
    (added : gset string) (item : string * ref) : result (option (string * SnapshotTableInfo)) :=
  let '(name, r) := item in
  if bool_decide (name ∈ added) then Ok None
  else
    s ← deref h r;
    info ← of_option (KeyError name) (existing_info !! name);
    if bool_decide (fingerprint s ≠ info_fingerprint info)
    then Ok (Some (name, info)) else Ok None.

Fixpoint modified_info_of (h : heap) (existing_info : gmap string SnapshotTableInfo)
    (added : gset string) (items : list (string * ref))
    : result (list (string * SnapshotTableInfo)) :=
  match items with
  | [] => Ok []
  | item :: rest =>
      e ← modified_entry h existing_info added item;
      tl ← modified_info_of h existing_info added rest;
      Ok (match e with Some x => x :: tl | None => tl end)
  end.

Fixpoint snapshot_ids (h : heap) (items : list (string * ref)) : result (list SnapshotId) :=
  match items with
  | [] => Ok []
  | (_, r) :: rest =>
      s ← deref h r;
      tl ← snapshot_ids h rest;
      Ok (snapshot_id s :: tl)
  end.

(** The innermost loop, over existing.indirect_versions.items(). *)
Definition record_remote (created : Z)
    (remote : gmap string (list SnapshotDataVersion * Z))
    (entry : string * list SnapshotDataVersion)
    : gmap string (list SnapshotDataVersion * Z) :=
  let '(child, versions) := entry in
  match remote !! child with
  | Some existing_versions =>
      if bool_decide (existing_versions.2 < created)%Z
      then <[child := (versions, created)]> remote
      else remote
  | None => <[child := (versions, created)]> remote
  end.

(** The body of the first loop, for one item of snapshots.items(). *)
Definition merge_one (modified_info : gmap string SnapshotTableInfo)
    (stored : SnapshotId -> option ref) (l : locals) (item : string * ref)
    : result locals :=
  let '(name, r) := item in
  let modified := modified_info !! name in
  snapshot ← deref (objects l) r;
  match stored (snapshot_id snapshot) with
  | Some existing =>
      e ← deref (objects l) existing;
      let '(h1, c) := copy (objects l) e in
      let merged := <[name := c]> (merged_snapshots l) in
      match modified with
      | Some m =>
          old ← of_option (KeyError (info_name m)) (stored (info_snapshot_id m));
          Ok (mkLocals h1 merged
                (<[name := (existing, old)]> (modified_snapshots l))
                (new_snapshots l)
                (foldl (record_remote (created_ts e))
                       (snapshot_remote_versions l) (indirect_versions e)))
      | None =>
          Ok (mkLocals h1 merged (modified_snapshots l) (new_snapshots l)
                (snapshot_remote_versions l))
      end
  | None =>
      let '(h1, c) := copy (objects l) snapshot in
      let merged := <[name := c]> (merged_snapshots l) in
      let new := new_snapshots l ++ [c] in
      match modified with
      | Some m =>
          let h2 := assign h1 c (with_previous_versions (all_versions m) snapshot) in
          old ← of_option (KeyError (info_name m)) (stored (info_snapshot_id m));
          Ok (mkLocals h2 merged (<[name := (c, old)]> (modified_snapshots l)) new
                (snapshot_remote_versions l))
      | None =>
          Ok (mkLocals h1 merged (modified_snapshots l) new (snapshot_remote_versions l))
      end
  end.

Fixpoint merge_all (modified_info : gmap string SnapshotTableInfo)
    (stored : SnapshotId -> option ref) (l : locals) (items : list (string * ref))
    : result locals :=
  match items with
  | [] => Ok l
  | item :: rest =>
      l' ← merge_one modified_info stored l item;
      merge_all modified_info stored l' rest
  end.

Section create.
Variable fresh_version : string -> SnapshotFingerprint -> string.

(** The version decision of the second loop, for one new snapshot. *)
Definition reuse_version
    (remote : gmap string (list SnapshotDataVersion * Z)) (s : Snapshot)
    : result Snapshot :=
  match remote !! name s, previous_version s with
  | Some (remote_versions, _), Some previous =>
      if data_hash_matches s previous then
        remote_last ← of_option IndexError (last remote_versions);
        let remote_head := dv_version remote_last in
        let local_head := dv_version previous in
        if bool_decide (remote_head ∈ dv_version <$> previous_versions s)
        then Ok (set_version fresh_version (Some local_head) s)
        else if bool_decide (local_head ∈ dv_version <$> remote_versions)
        then Ok (set_version fresh_version (Some remote_head) s)
        else Ok (set_version fresh_version None s)
      else Ok s
  | _, _ => Ok s
  end.

Fixpoint reuse_all (remote : gmap string (list SnapshotDataVersion * Z))
    (h : heap) (new : list ref) : result heap :=
  match new with
  | [] => Ok h
  | c :: rest =>
      s ← deref h c;
      s' ← reuse_version remote s;
      reuse_all remote (assign h c s') rest
  end.

(** The state of [create] when its first loop has finished. *)
Definition merged_state (env : option Environment) (snapshots : list (string * ref))
    (state_reader : StateReader) (h : heap) : result locals :=
  let existing_info := existing_info_of (from_option env_snapshots [] env) in
  let existing_models := dom existing_info in
  let current_models := keys snapshots in
  let added := current_models ∖ existing_models in
  modified_items ← modified_info_of h existing_info added snapshots;
  ids ← snapshot_ids h snapshots;
  let stored :=
    get_snapshots state_reader ((info_snapshot_id <$> modified_items.*2) ++ ids) in
  merge_all (list_to_map (reverse modified_items)) stored
            (mkLocals h ∅ ∅ [] ∅) snapshots.

Definition resolve_environment (environment : string + Environment)
    (state_reader : StateReader) : option Environment * string :=
  match environment with
  | inl n => (get_environment state_reader n, n)
  | inr env => (Some env, env_name env)
  end.

Definition create (environment : string + Environment)
    (snapshots : list (string * ref)) (state_reader : StateReader) (h : heap)
    : result (ContextDiff.t * heap) :=
  let '(env, environment) := resolve_environment environment state_reader in
  let existing_info := existing_info_of (from_option env_snapshots [] env) in
  let existing_models := dom existing_info in
  let current_models := keys snapshots in
  let removed := existing_models ∖ current_models in
  let added := current_models ∖ existing_models in
  l ← merged_state env snapshots state_reader h;
  h' ← reuse_all (snapshot_remote_versions l) (objects l) (new_snapshots l);
  Ok (ContextDiff.mk environment added removed (modified_snapshots l)
        (merged_snapshots l) (new_snapshots l) (plan_id <$> env), h').
End create.

(** The state store after the new snapshots of a diff were pushed: the
    reader [rd'] over the heap [g'] still knows the environments and every
    stored snapshot [rd] knew, it finds the pushed snapshots by their
    identifiers, and the caller's local snapshot objects are as they were
    in [g]. *)
Definition persisted (snapshots : list (string * nat)) (rd rd' : StateReader)
    (g g' : list Snapshot) (new : list nat) : Prop :=
  (forall n, get_environment rd' n = get_environment rd n) /\
  (forall ids id e, get_snapshots rd ids id = Some e ->
     exists e', get_snapshots rd' ids id = Some e' /\ is_Some (g' !! e')) /\
  (forall c s ids, c ∈ new -> g !! c = Some s -> snapshot_id s ∈ ids ->
     exists e', get_snapshots rd' ids (snapshot_id s) = Some e' /\ is_Some (g' !! e')) /\
  (forall n r, (n, r) ∈ snapshots -> g' !! r = g !! r).

End context_diff.

(** ** Moving references

    Running the diff on a heap into which a block [x] of other objects was
    inserted after the first [n] cells gives the same result, with every
    reference beyond [n] moved by the length of [x].  These definitions
    state that. *)

Module relocation.
Import snapshot context_diff.

Definition shift (n k : nat) (r : nat) : nat :=
  if decide (r < n) then r else r + k.

Definition inserted (n : nat) (x : list Snapshot) (h1 h2 : list Snapshot) : Prop :=
  exists h ext, length h = n /\ h1 = h ++ ext /\ h2 = h ++ x ++ ext.

Definition shift_locals (n k : nat) (h2 : list Snapshot) (l : locals) : locals :=
  mkLocals h2
    (shift n k <$> merged_snapshots l)
    (prod_map (shift n k) (shift n k) <$> modified_snapshots l)
    (shift n k <$> new_snapshots l)
    (snapshot_remote_versions l).

Definition shift_diff (n k : nat) (d : ContextDiff.t) : ContextDiff.t :=
  ContextDiff.mk (ContextDiff.environment d) (ContextDiff.added d)
    (ContextDiff.removed d)
    (prod_map (shift n k) (shift n k) <$> ContextDiff.modified_snapshots d)
    (shift n k <$> ContextDiff.snapshots d)
    (shift n k <$> ContextDiff.new_snapshots d)
    (ContextDiff.previous_plan_id d).

End relocation.

(** ** A concrete project used to run the diff

    Model [a] was changed and its new snapshot is already stored (another
    plan built it); model [b] depends on [a] and was not edited, so its
    snapshot is new and only indirectly modified.  The stored snapshot of
    [a] remembers that [b] went from version [vB0] to [vB2]. *)

Module scenario.
Import snapshot context_diff.

Definition fp (d m p : string) : SnapshotFingerprint := mkFingerprint d m p.

Definition fA1 := fp "dA1" "m" "".
Definition fA2 := fp "dA2" "m" "".
Definition fB1 := fp "dB" "m" "dA1".
Definition fB2 := fp "dB" "m" "dA2".

Definition local_a : Snapshot := mkSnapshot "a" fA2 "dA2" [] [] 0.
Definition local_b : Snapshot := mkSnapshot "b" fB2 "dB" [] [] 0.
Definition stored_a2 : Snapshot :=
  mkSnapshot "a" fA2 "dA2" [mkDataVersion fA1 "dA1"]
    [("b", [mkDataVersion fB1 "vB0"; mkDataVersion fB2 "vB2"])] 10.
Definition stored_a1 : Snapshot := mkSnapshot "a" fA1 "dA1" [] [] 1.
Definition stored_b1 : Snapshot := mkSnapshot "b" fB1 "vB0" [] [] 1.

Definition objects0 : list Snapshot :=
  [local_a; local_b; stored_a2; stored_a1; stored_b1].

Definition local_snapshots : list (string * nat) := [("a", 0); ("b", 1)].

Definition prod : Environment :=
  mkEnvironment "prod"
    [mkTableInfo "a" fA1 "dA1" [mkDataVersion fA1 "dA1"];
     mkTableInfo "b" fB1 "vB0" [mkDataVersion fB1 "vB0"]]
    "plan-1".

Definition store : list (SnapshotId * nat) :=
  [(mkSnapshotId "a" fA2, 2); (mkSnapshotId "a" fA1, 3); (mkSnapshotId "b" fB1, 4)].

Fixpoint store_get (st : list (SnapshotId * nat)) (id : SnapshotId) : option nat :=
  match st with
  | [] => None
  | (k, r) :: rest => if bool_decide (k = id) then Some r else store_get rest id
  end.

(** A state reader over a table of stored snapshots: it answers for the
    identifiers that were asked for. *)
Definition reader_of (envs : list Environment)
    (st : list (SnapshotId * nat)) : StateReader :=
  mkStateReader
    (fun n => snd <$> list_find (fun e => env_name e = n) envs)
    (fun ids id => if bool_decide (id ∈ ids) then store_get st id else None).

Definition reader : StateReader := reader_of [prod] store.

Definition fresh (n : string) (f : SnapshotFingerprint) : string := data_hash f.

Definition run := create fresh (inl "prod") local_snapshots reader objects0.

(** The store once the new snapshot of [b] (object 6 after [run]) was
    pushed. *)
Definition store_after : list (SnapshotId * nat) :=
  store ++ [(mkSnapshotId "b" fB2, 6)].
Definition reader_after : StateReader := reader_of [prod] store_after.
End scenario.

(** ** The SQL syntax trees (sqlglot)

    The repository works on the syntax trees of the sqlglot library, which is
    not part of it.  What the embedded code uses of that library is modelled
    here after the library's behaviour: a node has a class and a dictionary
    of arguments; an argument is a child node, a list of child nodes, or a
    plain Python value. *)

Module exp.

Inductive Class :=
| Select | Union | Subquery | Table | TableAlias | Column | Identifier | Var
| Literal | Boolean | Null | Alias | Cast | DataType | Between | And | Or | Not
| Paren | Where | Having | Group | Order | With | CTE | Join | From | Lambda
| Array | Anonymous | Star | EQ | GT | Add
| MacroVar | MacroFunc | MacroDef | MacroSQL | MacroStrReplace
| Other (key : string).

Global Instance class_eq_dec : EqDecision Class.
Proof. solve_decision. Defined.

Inductive Arg (E : Type) :=
| Exp (e : E)
| Exps (es : list E)
| Str (s : string)
| Flag (b : bool)
| NoArg.
Arguments Exp {E} e.
Arguments Exps {E} es.
Arguments Str {E} s.
Arguments Flag {E} b.
Arguments NoArg {E}.

Unset Elimination Schemes.
Inductive Expression :=
| Node (cls : Class) (args : list (string * Arg Expression)).
Set Elimination Schemes.

Definition class_of (e : Expression) : Class :=
  match e with Node cls _ => cls end.

Definition args_of (e : Expression) : list (string * Arg Expression) :=
  match e with Node _ args => args end.

(** [e.args.get(key)] *)
Fixpoint get (args : list (string * Arg Expression)) (key : string) : Arg Expression :=
  match args with
  | [] => NoArg
  | (k, a) :: rest => if bool_decide (k = key) then a else get rest key
  end.

(** [e.set(key, value)] / [e.args[key] = value]: the position of an
    existing key is kept, a new key goes last. *)
Fixpoint set (args : list (string * Arg Expression)) (key : string)
    (value : Arg Expression) : list (string * Arg Expression) :=
  match args with
  | [] => [(key, value)]
  | (k, a) :: rest =>
      if bool_decide (k = key) then (k, value) :: rest
      else (k, a) :: set rest key value
  end.

Definition arg (e : Expression) (key : string) : Arg Expression :=
  get (args_of e) key.

Definition this (e : Expression) : Arg Expression := arg e "this".

(** The truth value of [e.args.get(key)]. *)
Definition arg_truthy (a : Arg Expression) : bool :=
  match a with
  | Exp _ => true
  | Exps es => negb (bool_decide (es = []))
  | Str s => negb (bool_decide (s = ""))
  | Flag b => b
  | NoArg => false
  end.

(** isinstance, for the classes the code tests. *)
Definition is_macro_func (c : Class) : bool :=
  bool_decide (c ∈ [MacroFunc; MacroDef; MacroSQL; MacroStrReplace]).
Definition is_var (c : Class) : bool := bool_decide (c ∈ [Var; MacroVar]).
Definition is_subqueryable (c : Class) : bool := bool_decide (c ∈ [Select; Union]).

(** [e.text(key)] and [e.name] *)
Definition text (e : Expression) (key : string) : string :=
  match arg e key with
  | Str s => s
  | Exp (Node c args) =>
      if bool_decide (c = Identifier) || bool_decide (c = Literal) || is_var c
      then match get args "this" with Str s => s | _ => "" end
      else ""
  | _ => ""
  end.

Definition name (e : Expression) : string := text e "this".

(** A structural recursion principle for the nested tree. *)
Section induction.
Variable P : Expression -> Prop.

Definition arg_all (a : Arg Expression) : Prop :=
  match a with
  | Exp e => P e
  | Exps es => Forall P es
  | _ => True
  end.

Hypothesis node_case : forall cls args,
  Forall (fun kv : string * Arg Expression => arg_all kv.2) args ->
  P (Node cls args).

Fixpoint Expression_ind' (e : Expression) : P e :=
  match e with
  | Node cls args =>
      node_case cls args
        ((fix go (l : list (string * Arg Expression))
            : Forall (fun kv : string * Arg Expression => arg_all kv.2) l :=
            match l with
            | [] => @List.Forall_nil _ _
            | kv :: rest =>
                @List.Forall_cons _ _ kv rest
                  (match kv.2 as a return arg_all a with
                   | Exp e' => Expression_ind' e'
                   | Exps es =>
                       (fix go_list (l' : list Expression) : Forall P l' :=
                          match l' with
                          | [] => @List.Forall_nil _ _
                          | x :: xs =>
                              @List.Forall_cons _ _ x xs (Expression_ind' x) (go_list xs)
                          end) es
                   | _ => I
                   end)
                  (go rest)
            end) args)
  end.
End induction.

(** Two trees are equal for the library when they agree up to arguments
    that are None, False or an empty list. *)
Fixpoint normalize (e : Expression) : Expression :=
  match e with
  | Node cls args =>
      Node cls
        ((fix go (l : list (string * Arg Expression)) : list (string * Arg Expression) :=
            match l with
            | [] => []
            | (k, a) :: rest =>
                match a with
                | Exp c => (k, Exp (normalize c)) :: go rest
                | Exps [] => go rest
                | Exps cs => (k, Exps (map normalize cs)) :: go rest
                | Str s => (k, Str s) :: go rest
                | Flag true => (k, Flag true) :: go rest
                | Flag false => go rest
                | NoArg => go rest
                end
            end) args)
  end.

(** *** Traversals *)

(** [ensure_collection]: what a callback returned, as a list. *)
Inductive Replacement :=
| Nothing
| One (e : Expression)
| Many (es : list Expression).

Definition ensure_collection (r : Replacement) : list Expression :=
  match r with
  | Nothing => []
  | One e => [e]
  | Many es => es
  end.

Section replace_children.
Context {S : Type}.
Variable fun_ : S -> string -> Expression -> result (S * list Expression).

Definition replace_list (key : string) : S -> list Expression -> result (S * list Expression) :=
  fix go (s : S) (es : list Expression) :=
    match es with
    | [] => Ok (s, [])
    | e :: rest =>
        '(s1, new) ← fun_ s key e;
        '(s2, tl) ← go s1 rest;
        Ok (s2, new ++ tl)
    end.

Definition replace_arg (s : S) (key : string) (a : Arg Expression)
    : result (S * Arg Expression) :=
  match a with
  | Exp e =>
      '(s1, new) ← fun_ s key e;
      Ok (s1, match new with [] => NoArg | x :: _ => Exp x end)
  | Exps es =>
      '(s1, new) ← replace_list key s es;
      Ok (s1, Exps new)
  | other => Ok (s, other)
  end.

(** [replace_children(expression, fun)]: every child node is replaced by
    what the callback returns for it, argument by argument. *)
Definition replace_children : S -> list (string * Arg Expression)
    -> result (S * list (string * Arg Expression)) :=
  fix go (s : S) (args : list (string * Arg Expression)) :=
    match args with
    | [] => Ok (s, [])
    | (k, a) :: rest =>
        '(s1, a') ← replace_arg s k a;
        '(s2, tl) ← go s1 rest;
        Ok (s2, (k, a') :: tl)
    end.
End replace_children.

(** [e.transform(fun)]: the callback is applied top-down; where it
    returns the node it was given ([None] here) the children are visited,
    where it returns another node that node is taken as it is. *)
Fixpoint transform_at (fun_ : string -> Expression -> result (option Expression))
    (key : string) (e : Expression) : result Expression :=
  r ← fun_ key e;
  match r with
  | Some new_node => Ok new_node
  | None =>
      match e with
      | Node cls args =>
          '(_, args') ← replace_children
            (fun (_ : unit) k child =>
               child' ← transform_at fun_ k child; Ok (tt, [child']))
            tt args;
          Ok (Node cls args')
      end
  end.
End exp.

(** ** sqlmesh.core.macros *)

Module macros.
Import exp.

(** Python values that reach the evaluator: the result of evaluating
    generated code, the bindings in [locals], the arguments and results of
    macro functions.  Any other object is kept with its truth value and
    with what [exp.convert] makes of it. *)
Unset Elimination Schemes.
Inductive Value :=
| VNone
| VBool (b : bool)
| VInt (z : Z)
| VStr (s : string)
| VExp (e : Expression)
| VList (items : list Value)
| VOther (truthy : bool) (converted : option Expression).
Set Elimination Schemes.

Definition truthy (v : Value) : bool :=
  match v with
  | VNone => false
  | VBool b => b
  | VInt z => negb (z =? 0)%Z
  | VStr s => negb (bool_decide (s = ""))
  | VExp _ => true
  | VList items => negb (bool_decide (items = []))
  | VOther t _ => t
  end.

Definition literal_string (s : string) : Expression :=
  Node Literal [("this", Str s); ("is_string", Flag true)].
Definition literal_number (s : string) : Expression :=
  Node Literal [("this", Str s); ("is_string", Flag false)].

(** [exp.convert] *)
Fixpoint convert (v : Value) : result Expression :=
  match v with
  | VExp e => Ok e
  | VNone => Ok (Node Null [])
  | VBool b => Ok (Node Boolean [("this", Flag b)])
  | VStr s => Ok (literal_string s)
  | VInt z => Ok (literal_number (pretty z))
  | VList items =>
      es ← (fix go (l : list Value) : result (list Expression) :=
              match l with
              | [] => Ok []
              | x :: rest => e ← convert x; tl ← go rest; Ok (e :: tl)
              end) items;
      Ok (Node Array [("expressions", Exps es)])
  | VOther _ (Some e) => Ok e
  | VOther _ None => Raise ValueError
  end.

Definition upper_ascii (c : ascii) : ascii :=
  let n := nat_of_ascii c in
  if (97 <=? n)%nat && (n <=? 122)%nat then ascii_of_nat (n - 32) else c.

Fixpoint upper (s : string) : string :=
  match s with
  | EmptyString => EmptyString
  | String c rest => String (upper_ascii c) (upper rest)
  end.

(** Prefix macro name with @ and upcase *)
Definition normalize_macro_name (name : string) : string := "@" +:+ upper name.

(** What a macro function gets of the evaluator that calls it. *)
Record Evaluator := mkEvaluator {
  ev_locals : gmap string Value;
  ev_eval_expression : Value -> result Value
}.

Abbreviation MacroFunction := (Evaluator -> list Value -> result Value) (only parsing).

(** The clause macros: [expression if evaluator.eval_expression(condition)
    else None]. *)
Definition with_ : MacroFunction := fun evaluator args =>
  match args with
  | [condition; expression] =>
      c ← ev_eval_expression evaluator condition;
      Ok (if truthy c then expression else VNone)
  | _ => Raise TypeError
  end.

Definition join : MacroFunction := fun evaluator args =>
  match args with
  | [condition; expression] =>
      c ← ev_eval_expression evaluator condition;
      Ok (if truthy c then expression else VNone)
  | _ => Raise TypeError
  end.

Definition where_ : MacroFunction := fun evaluator args =>
  match args with
  | [condition; expression] =>
      c ← ev_eval_expression evaluator condition;
      Ok (if truthy c then expression else VNone)
  | _ => Raise TypeError
  end.

Definition group_by : MacroFunction := fun evaluator args =>
  match args with
  | [condition; expression] =>
      c ← ev_eval_expression evaluator condition;
      Ok (if truthy c then expression else VNone)
  | _ => Raise TypeError
  end.

Definition having : MacroFunction := fun evaluator args =>
  match args with
  | [condition; expression] =>
      c ← ev_eval_expression evaluator condition;
      Ok (if truthy c then expression else VNone)
  | _ => Raise TypeError
  end.

Definition order_by : MacroFunction := fun evaluator args =>
  match args with
  | [condition; expression] =>
      c ← ev_eval_expression evaluator condition;
      Ok (if truthy c then expression else VNone)
  | _ => Raise TypeError
  end.

(** The clause macros as the registry holds them, under their normalized
    names. *)
Definition clause_macros : list (string * MacroFunction) :=
  [("@WITH", with_); ("@JOIN", join); ("@WHERE", where_);
   ("@GROUP_BY", group_by); ("@HAVING", having); ("@ORDER_BY", order_by)].

(** The host side of the evaluator: the code generator of the macro
    dialect and the Python interpreter that runs the generated code. *)
Record Host := mkHost {
  (** [self.generator.generate(node)], if it does not raise *)
  generate : Expression -> option string;
  (** [node.sql()] *)
  sql : Expression -> string;
  (** [eval(code, self.env, self.locals)] for the code of a node that is
      not a call of a named macro *)
  python : gmap string Value -> Expression -> result Value
}.

Definition nl : string := String (ascii_of_nat 10) EmptyString.

Definition eval_error_message (host : Host) (node : Expression) : string :=
  "Error trying to eval macro." +:+ nl +:+ nl +:+ "Generated code: "
    +:+ default (sql host node) (generate host node)
    +:+ nl +:+ nl +:+ "Original sql: " +:+ sql host node.

Definition expressions (e : Expression) : list Expression :=
  match arg e "expressions" with
  | Exps es => es
  | _ => []
  end.

(** [node.find(exp.Column, exp.Table)] is not None *)
Fixpoint contains (p : Class -> bool) (e : Expression) : bool :=
  match e with
  | Node cls args =>
      p cls ||
      existsb (fun kv : string * Arg Expression =>
                 match kv.2 with
                 | Exp e' => contains p e'
                 | Exps es => existsb (contains p) es
                 | _ => false
                 end) args
  end.

(** The node of a call [@NAME(args...)]. *)
Definition macro_call (fname : string) (args : list Expression) : Expression :=
  Node MacroFunc
    [("this", Exp (Node Anonymous [("this", Str fname); ("expressions", Exps args)]))].

Definition column_or_table (c : Class) : bool :=
  bool_decide (c = Column) || bool_decide (c = Table).

Section MacroEvaluator.
Variable host : Host.
Variable macros : gmap string MacroFunction.

Definition send_with (evaluator : Evaluator) (name : string) (args : list Value)
    : result Value :=
  match macros !! normalize_macro_name name with
  | None => Raise (SQLMeshError ("Macro '" +:+ name +:+ "' does not exist."))
  | Some func => func evaluator args
  end.

Fixpoint python_args (locals : gmap string Value) (args : list Expression)
    : result (list Value) :=
  match args with
  | [] => Ok []
  | a :: rest =>
      v ← python host locals a;
      tl ← python_args locals rest;
      Ok (v :: tl)
  end.

(** Running the code generated for [node].  For a call of a named
    macro the code is [self.send('name', args...)]; everything else is
    left to the interpreter.  [depth] bounds the nesting of such runs,
    as the interpreter's recursion limit does. *)
Fixpoint run (depth : nat) (locals : gmap string Value) (node : Expression)
    : result Value :=
  match depth with
  | 0 => Raise RecursionError
  | S depth' =>
      match generate host node, class_of node, this node with
      | None, _, _ => Raise ValueError
      | Some _, MacroFunc, Exp (Node Anonymous fargs as func) =>
            args ← python_args locals (expressions func);
            send_with
              (mkEvaluator locals
                 (fun v => match v with
                           | VExp e =>
                               match run depth' locals e with
                               | Ok r => Ok r
                               | Raise _ => Raise (MacroEvalError (eval_error_message host e))
                               end
                           | _ => Raise AttributeError
                           end))
              (name func) args
      | Some _, _, _ => python host locals node
      end
  end.

(** Converts a SQLGlot expression into executable Python code and evals
    it. *)
Definition eval_expression (depth : nat) (locals : gmap string Value) (node : Value)
    : result Value :=
  match node with
  | VExp e =>
      match run depth locals e with
      | Ok r => Ok r
      | Raise _ => Raise (MacroEvalError (eval_error_message host e))
      end
  | _ => Raise AttributeError
  end.

Definition send (depth : nat) (locals : gmap string Value) (name : string)
    (args : list Value) : result Value :=
  send_with (mkEvaluator locals (eval_expression depth locals)) name args.

Fixpoint convert_items (items : list Value) : result (list Expression) :=
  match items with
  | [] => Ok []
  | VNone :: rest => convert_items rest
  | item :: rest => e ← convert item; tl ← convert_items rest; Ok (e :: tl)
  end.

Definition evaluate (depth : nat) (locals : gmap string Value) (node : Expression)
    : result (gmap string Value * Replacement) :=
  if bool_decide (class_of node = MacroDef) then
    Ok (<[name node := match arg node "expression" with
                        | Exp e => VExp e
                        | _ => VNone
                        end]> locals, One node)
  else
    result ←
      (if bool_decide (class_of node = MacroSQL) || negb (contains column_or_table node)
       then eval_expression depth locals (VExp node)
       else match this node with
            | Exp func => send depth locals (name func) (VExp <$> expressions func)
            | _ => Raise AttributeError
            end);
    match result with
    | VNone => Ok (locals, Nothing)
    | VList items => es ← convert_items items; Ok (locals, Many es)
    | other => e ← convert other; Ok (locals, One e)
    end.

Fixpoint evaluate_macros (depth : nat) (locals : gmap string Value) (node : Expression)
    : result (gmap string Value * Replacement) :=
  match node with
  | Node cls args =>
      '(locals1, args') ← replace_children
        (fun l (_ : string) n =>
           if bool_decide (class_of n = Lambda) then Ok (l, [n])
           else '(l', r) ← evaluate_macros depth l n; Ok (l', ensure_collection r))
        locals args;
      if is_macro_func cls then evaluate depth locals1 (Node cls args')
      else Ok (locals1, One (Node cls args'))
  end.

(** The first pass of [transform]: every macro variable is replaced by
    the converted value bound to its name. *)
Definition substitute_var (locals : gmap string Value) (_ : string) (node : Expression)
    : result (option Expression) :=
  if bool_decide (class_of node = MacroVar) then
    v ← of_option (KeyError (name node)) (locals !! name node);
    e ← convert v;
    Ok (Some e)
  else Ok None.

(** The last pass of [transform]: a column in alias position is
    replaced by its identifier.  The pass works in place and its result
    is discarded, so the root itself stays. *)
Definition unalias (key : string) (node : Expression) : result (option Expression) :=
  if bool_decide (class_of node = Column) && bool_decide (key = "alias") then
    match this node with
    | Exp t => Ok (Some t)
    | _ => Ok None
    end
  else Ok None.

Definition unalias_in_place (e : Expression) : result Expression :=
  r ← unalias "" e;
  match r with
  | Some _ => Ok e
  | None => transform_at unalias "" e
  end.

Fixpoint unalias_all (es : list Expression) : result (list Expression) :=
  match es with
  | [] => Ok []
  | e :: rest => e' ← unalias_in_place e; tl ← unalias_all rest; Ok (e' :: tl)
  end.

Definition transform (depth : nat) (locals : gmap string Value) (query : Expression)
    : result (gmap string Value * Replacement) :=
  query1 ← transform_at (substitute_var locals) "" query;
  '(locals', transformed) ← evaluate_macros depth locals query1;
  match transformed with
  | Nothing => Ok (locals', Nothing)
  | One e => e' ← unalias_in_place e; Ok (locals', One e')
  | Many es => es' ← unalias_all es; Ok (locals', Many es')
  end.
End MacroEvaluator.

(** *** Trees without macro nodes *)

Definition macro_class (c : Class) : bool :=
  is_macro_func c || bool_decide (c = MacroVar).

(** No MacroVar, MacroFunc or MacroDef node (nor a node of a subclass)
    occurs in the tree. *)
Definition macro_free (e : Expression) : Prop := contains macro_class e = false.

Fixpoint value_macro_free (v : Value) : Prop :=
  match v with
  | VExp e => macro_free e
  | VList items =>
      (fix all (l : list Value) : Prop :=
         match l with
         | [] => True
         | x :: rest => value_macro_free x /\ all rest
         end) items
  | VOther _ (Some e) => macro_free e
  | _ => True
  end.

(** A query the amended statement of macro elimination covers: it holds
    no macro definition and no lambda. *)
Definition plain_query (e : Expression) : Prop :=
  contains (fun c => bool_decide (c = MacroDef) || bool_decide (c = Lambda)) e = false.

(** What macro elimination asks of the host interpreter, of the macro
    table and of the bindings: they hand back values without macro nodes
    (a macro function, when it is given such values). *)
Record well_behaved (host : Host) (macros : gmap string MacroFunction)
    (locals : gmap string Value) : Prop := mkWellBehaved {
  python_free : forall l e v, python host l e = Ok v -> value_macro_free v;
  macros_free : forall n f evaluator args v,
    macros !! n = Some f ->
    Forall value_macro_free args ->
    (forall x y, ev_eval_expression evaluator x = Ok y -> value_macro_free y) ->
    f evaluator args = Ok v ->
    value_macro_free v;
  locals_free : forall k v, locals !! k = Some v -> value_macro_free v
}.
(** *** Trees that are ready for the second pass

    After the first pass of [transform] on a plain query no macro variable
    is left, no macro definition occurs, and a lambda can only be part of
    a substituted value, which holds no macro node. *)
Fixpoint ready (e : Expression) : Prop :=
  match e with
  | Node cls args =>
      cls <> MacroVar /\ cls <> MacroDef /\
      (cls = Lambda -> macro_free e) /\
      (fix all (l : list (string * Arg Expression)) : Prop :=
         match l with
         | [] => True
         | kv :: rest =>
             match kv.2 with
             | Exp c => ready c
             | Exps cs =>
                 (fix alls (l' : list Expression) : Prop :=
                    match l' with
                    | [] => True
                    | x :: xs => ready x /\ alls xs
                    end) cs
             | _ => True
             end /\ all rest
         end) args
  end.

End macros.

(** ** sqlmesh.core.model *)

Module model.
Import exp macros.

(** *** More of the syntax-tree library *)

(** [e.alias]: the name of the alias argument. *)
Definition alias (e : Expression) : string :=
  match arg e "alias" with
  | Exp (Node TableAlias _ as a) => name a
  | _ => text e "alias"
  end.

(** [e.name], where a cast takes the name of what it casts. *)
Fixpoint name_of (e : Expression) : string :=
  match e with
  | Node Cast args =>
      (fix this_name (l : list (string * Arg Expression)) : string :=
         match l with
         | [] => ""
         | (k, a) :: rest =>
             if bool_decide (k = "this")
             then match a with Exp t => name_of t | _ => "" end
             else this_name rest
         end) args
  | _ => name e
  end.

(** [e.alias_or_name] *)
Definition alias_or_name (e : Expression) : string :=
  if bool_decide (alias e = "") then name_of e else alias e.

(** [Between(this=..., low=..., high=...)] *)
Definition between (this_ low high : Expression) : Expression :=
  Node Between [("this", Exp this_); ("low", Exp low); ("high", Exp high)].

Definition wrap_operator (e : Expression) : Expression :=
  if bool_decide (class_of e ∈ [And; Or; Not]) then Node Paren [("this", Exp e)] else e.

(** [and_(existing, condition)] *)
Definition and_ (existing condition : Expression) : Expression :=
  Node And [("this", Exp (wrap_operator existing));
            ("expression", Exp (wrap_operator condition))].

(** [select.where(condition, copy=False)] and [select.having(...)]: the
    condition is conjoined with the one the clause already has. *)
Definition apply_conjunction (key : string) (into : Class) (condition : Expression)
    (select : Expression) : result Expression :=
  match select with
  | Node cls args =>
      match get args key with
      | NoArg => Ok (Node cls (set args key (Exp (Node into [("this", Exp condition)]))))
      | Exp existing =>
          match this existing with
          | Exp c =>
              Ok (Node cls (set args key (Exp (Node into [("this", Exp (and_ c condition))]))))
          | _ => Raise ValueError
          end
      | _ => Raise AttributeError
      end
  end.

Definition where_clause := apply_conjunction "where" Where.
Definition having_clause := apply_conjunction "having" Having.

(** [exp.table_name(node)] *)
Definition table_name (e : Expression) : string :=
  let parts := filter (fun s => s ≠ "") [text e "catalog"; text e "db"; text e "this"] in
  match parts with
  | [] => ""
  | p :: rest => foldl (fun acc s => acc +:+ "." +:+ s) p rest
  end.

(** [query.subquery(alias=..., copy=False)] *)
Definition subquery (alias_ : string) (query : Expression) : Expression :=
  Node Subquery
    [("this", Exp query);
     ("alias", Exp (Node TableAlias
                      [("this", Exp (Node Identifier [("this", Str alias_)]))]))].

Definition children (e : Expression) : list Expression :=
  concat ((fun kv : string * Arg Expression =>
             match kv.2 with
             | Exp c => [c]
             | Exps cs => cs
             | _ => []
             end) <$> args_of e).

Fixpoint size (e : Expression) : nat :=
  match e with
  | Node _ args =>
      S (list_sum ((fun kv : string * Arg Expression =>
                      match kv.2 with
                      | Exp c => size c
                      | Exps cs => list_sum (size <$> cs)
                      | _ => 0
                      end) <$> args))
  end.

(** [e.find(cls)]: the first node of the class in breadth-first order. *)
Fixpoint bfs_find (fuel : nat) (p : Class -> bool) (queue : list Expression)
    : option Expression :=
  match fuel, queue with
  | S fuel', e :: rest =>
      if p (class_of e) then Some e else bfs_find fuel' p (rest ++ children e)
  | _, _ => None
  end.

Definition find (p : Class -> bool) (e : Expression) : option Expression :=
  bfs_find (size e) p [e].

(** *** Model metadata *)

Inductive ModelKind := INCREMENTAL | FULL | SNAPSHOT | VIEW | EMBEDDED.

Global Instance model_kind_eq_dec : EqDecision ModelKind.
Proof. solve_decision. Defined.

Inductive IntervalUnit := DAY | HOUR | MINUTE.

Global Instance interval_unit_eq_dec : EqDecision IntervalUnit.
Proof. solve_decision. Defined.

Record TimeColumn := mkTimeColumn {
  column : string;
  format : option string
}.

(** A time-like argument: a string, a number, or a datetime (as epoch
    milliseconds). *)
Inductive TimeLike :=
| TimeStr (s : string)
| TimeInt (n : Z)
| TimeDatetime (millis : Z).

Global Instance time_like_eq_dec : EqDecision TimeLike.
Proof. solve_decision. Defined.

Definition time_truthy (t : TimeLike) : bool :=
  match t with
  | TimeStr s => negb (bool_decide (s = ""))
  | TimeInt n => negb (n =? 0)%Z
  | TimeDatetime _ => true
  end.

Definition EPOCH_DS : TimeLike := TimeStr "1970-01-01".

(** [value or EPOCH_DS] *)
Definition or_epoch (t : option TimeLike) : TimeLike :=
  match t with
  | Some t => if time_truthy t then t else EPOCH_DS
  | None => EPOCH_DS
  end.

Definition CacheKey : Type := string * Z * Z * Z.

Record Model := mkModel {
  name : string;
  kind : ModelKind;
  dialect : string;
  cron : string;
  time_column : option TimeColumn;
  columns_ : list (string * Expression);
  query : Expression;
  expressions_ : list Expression;
  _query_cache : list (CacheKey * Replacement)
}.

(** What rendering uses of the snapshot of another model. *)
Record SnapshotView := mkSnapshotView {
  table_name_of : string;
  has_version : bool;
  is_embedded_kind : bool;
  snapshot_model : Model
}.

(** The libraries and helpers the module calls and that are not part of
    the sources at hand: croniter, sqlmesh.utils.date, the dialect's time
    formats, and sqlglot's parser and simplifier. *)
Record Host := mkHost {
  macro_host : macros.Host;
  (** the macro registry, under normalized names *)
  registry : gmap string MacroFunction;
  (** the first [n] values of [croniter(cron).get_next()] *)
  croniter_samples : string -> nat -> list Z;
  make_inclusive : TimeLike -> TimeLike -> Z * Z;
  to_datetime : TimeLike -> Z;
  date_dict : Z -> Z -> Z -> list (string * Value);
  strftime : Z -> string -> string;
  (** [format_time(format, Dialect.get_or_raise(dialect).time_mapping)] *)
  format_time : string -> string -> result (option string);
  (** [str(time)] *)
  time_str : TimeLike -> string;
  (** [exp.convert(time)] *)
  convert_time : TimeLike -> Expression;
  (** [exp.to_table(name, **kwargs)] *)
  to_table : string -> list (string * Arg Expression) -> Expression;
  simplify : Expression -> Expression
}.

(** Text, numeric and temporal kinds of [exp.DataType]. *)
Definition TEXT_TYPES : list string := ["CHAR"; "NCHAR"; "VARCHAR"; "NVARCHAR"; "TEXT"].
Definition NUMERIC_TYPES : list string :=
  ["INT"; "TINYINT"; "SMALLINT"; "BIGINT"; "FLOAT"; "DOUBLE"].
Definition TEMPORAL_TYPES : list string :=
  ["TIMESTAMP"; "TIMESTAMPTZ"; "TIMESTAMPLTZ"; "DATE"; "DATETIME"].

(** [data_type.this]: the kind of a DataType node. *)
Definition type_kind (data_type : Expression) : string := text data_type "this".

Definition cast (this_ to : Expression) : Expression :=
  Node Cast [("this", Exp this_); ("to", Exp to)].

Section model.
Variable host : Host.

(** **** Cron *)

Fixpoint gaps (samples : list Z) : list Z :=
  match samples with
  | a :: (b :: _) as rest => (b - a)%Z :: gaps rest
  | _ => []
  end.

Definition minimum (l : list Z) : result Z :=
  match l with
  | [] => Raise ValueError
  | x :: rest => Ok (foldl Z.min x rest)
  end.

(** Returns the IntervalUnit of the model *)
Definition interval_unit (m : Model) (sample_size : nat) : result IntervalUnit :=
  let samples := croniter_samples host (cron m) sample_size in
  min_interval ← minimum (gaps samples);
  if (min_interval >=? 86400)%Z then Ok DAY
  else if (min_interval >=? 3600)%Z then Ok HOUR
  else Ok MINUTE.

(** Returns the UTC normalized cron based on sampling heuristics. *)
Definition normalized_cron (m : Model) : result string :=
  unit ← interval_unit m 10;
  if bool_decide (unit = MINUTE) then Ok "* * * * *"
  else if bool_decide (unit = HOUR) then Ok "0 * * * *"
  else if bool_decide (unit = DAY) then Ok "0 0 * * *"
  else Ok "".

(** **** Rendering *)

(** All macro definitions from the list of expressions. *)
Definition macro_definitions (m : Model) : list Expression :=
  filter (fun s => class_of s = MacroDef) (expressions_ m).

Definition is_sql (m : Model) : bool := negb (bool_decide (class_of (query m) = MacroVar)).

Fixpoint parts_after_dot (acc : string) (s : string) : list string :=
  match s with
  | EmptyString => [acc]
  | String c rest =>
      if bool_decide (c = "."%char) then acc :: parts_after_dot "" rest
      else parts_after_dot (acc +:+ String c EmptyString) rest
  end.

(** [parse_model_name(self.name)[2]] *)
Definition view_name (m : Model) : string :=
  let splits := parts_after_dot "" (name m) in
  match splits with
  | [_; _; t] => t
  | [_; t] => t
  | _ => name m
  end.

Fixpoint cache_get (cache : list (CacheKey * Replacement)) (key : CacheKey)
    : option Replacement :=
  match cache with
  | [] => None
  | (k, v) :: rest => if bool_decide (k = key) then Some v else cache_get rest key
  end.

Fixpoint evaluate_definitions (depth : nat)
    (locals : gmap string Value) (definitions : list Expression)
    : result (gmap string Value) :=
  match definitions with
  | [] => Ok locals
  | definition :: rest =>
      '(locals', _) ← evaluate (macro_host host) (registry host) depth locals definition;
      evaluate_definitions depth locals' rest
  end.

Fixpoint lookup_snapshot (snapshots : list (string * SnapshotView)) (n : string)
    : option SnapshotView :=
  match snapshots with
  | [] => None
  | (k, v) :: rest => if bool_decide (k = n) then Some v else lookup_snapshot rest n
  end.

Fixpoint lookup_mapping (mapping : list (string * string)) (n : string) : option string :=
  match mapping with
  | [] => None
  | (k, v) :: rest => if bool_decide (k = n) then Some v else lookup_mapping rest n
  end.

(** [exp.replace_tables(query, mapping)] *)
Definition replace_tables (mapping : list (string * string)) (query : Expression)
    : result Expression :=
  transform_at
    (fun _ node =>
       if bool_decide (class_of node = Table) then
         match lookup_mapping mapping (table_name node) with
         | Some new_name =>
             if bool_decide (new_name = "") then Ok None
             else Ok (Some (to_table host new_name
                              (filter (fun kv : string * Arg Expression =>
                                         kv.1 ∉ ["this"; "db"; "catalog"])
                                      (args_of node))))
         | None => Ok None
         end
       else Ok None)
    "" query.

(** Renders a query, expanding macros with provided kwargs, and
    optionally expanding referenced models.  [depth] bounds the nesting
    of expansions and of macro evaluation. *)
Fixpoint _render_query (depth : nat) (m : Model) (query_ : Expression)
    (start end_ latest : option TimeLike)
    (snapshots : list (string * SnapshotView))
    (mapping : list (string * string)) (expand : list string)
    (audit_name : option string) (dialect_ : option string)
    (kwargs : list (string * Value)) : result Expression :=
  match depth with
  | 0 => Raise RecursionError
  | S depth' =>
      let '(start_date, end_date) := make_inclusive host (or_epoch start) (or_epoch end_) in
      let latest_date := to_datetime host (or_epoch latest) in
      let key : CacheKey := (default "" audit_name, start_date, end_date, latest_date) in
      let mapping :=
        if bool_decide (mapping = []) then
          omap (fun '(n, snapshot) =>
                  if has_version snapshot && negb (is_embedded_kind snapshot)
                  then Some (n, table_name_of snapshot) else None) snapshots
        else mapping in
      let expand :=
        expand ++ filter (fun n => lookup_mapping mapping n = None) (snapshots.*1) in
      rendered ←
        match cache_get (_query_cache m) key with
        | Some cached => Ok cached
        | None =>
            let locals0 : gmap string Value :=
              foldl (fun l '(k, v) => <[k := v]> l)
                    (foldl (fun l '(k, v) => <[k := v]> l) ∅ kwargs)
                    (date_dict host start_date end_date latest_date) in
            locals ← evaluate_definitions depth' locals0 (macro_definitions m);
            '(_, r) ← transform (macro_host host) (registry host) depth' locals query_;
            Ok r
        end;
      match rendered with
      | One query1 =>
          query2 ←
            (if bool_decide (expand = []) then Ok query1
             else
               transform_at
                 (fun _ node =>
                    if bool_decide (class_of node = Table) && negb (bool_decide (snapshots = []))
                    then
                      let n := table_name node in
                      match lookup_snapshot snapshots n with
                      | Some snapshot =>
                          let model_ := snapshot_model snapshot in
                          if bool_decide (n ∈ expand) && is_sql model_ then
                            sub ← _render_query depth' model_ (query model_)
                                    start end_ latest snapshots mapping expand
                                    None None kwargs;
                            Ok (Some (subquery
                                        (if bool_decide (alias node = "")
                                         then view_name model_ else alias node)
                                        sub))
                          else Ok None
                      | None => Ok None
                      end
                    else Ok None)
                 "" query1);
          if bool_decide (mapping = []) then
            if is_subqueryable (class_of query2) then Ok query2
            else Raise (SQLMeshError "Query needs to be a SELECT or a UNION")
          else replace_tables mapping query2
      | _ =>
          if bool_decide (expand = []) && bool_decide (mapping = [])
          then Raise (SQLMeshError "Query needs to be a SELECT or a UNION")
          else Raise AttributeError
      end
  end.

(** Returns the mapping of column names to types of this model. *)
Definition columns (depth : nat) (m : Model) : result (list (string * Expression)) :=
  if bool_decide (columns_ m = []) then
    rendered ← _render_query depth m (query m) None None None [] [] [] None None [];
    (fix go (es : list Expression) : result (list (string * Expression)) :=
       match es with
       | [] => Ok []
       | e :: rest =>
           tl ← go rest;
           match find (fun c => bool_decide (c = Cast)) e with
           | Some c =>
               match arg c "to" with
               | Exp to => Ok ((alias_or_name e, to) :: tl)
               | _ => Raise AttributeError
               end
           | None => Raise AttributeError
           end
       end) (expressions rendered)
  else Ok (columns_ m).

Fixpoint lookup_column (cols : list (string * Expression)) (n : string)
    : option Expression :=
  match cols with
  | [] => None
  | (k, v) :: rest =>
      match lookup_column rest n with
      | Some later => Some later
      | None => if bool_decide (k = n) then Some v else None
      end
  end.

(** The first step of [convert_to_time_column]: with a declared format
    that the dialect can express, the time is formatted. *)
Definition formatted_time (m : Model) (tc : TimeColumn) (time : TimeLike)
    : result (option string) :=
  match format tc with
  | Some f =>
      if bool_decide (f = "") then Ok None
      else
        fmt ← format_time host f (dialect m);
        match fmt with
        | Some fmt =>
            if bool_decide (fmt = "") then Ok None
            else Ok (Some (strftime host (to_datetime host time) fmt))
        | None => Ok None
        end
  | None => Ok None
  end.

(** Convert a TimeLike object to the same time format and type as the
    model's time column. *)
Definition convert_to_time_column (depth : nat) (m : Model) (time : TimeLike)
    : result Expression :=
  match time_column m with
  | Some tc =>
      formatted ← formatted_time m tc time;
      let text_ := default (time_str host time) formatted in
      cols ← columns depth m;
      time_column_type ← of_option (KeyError (column tc)) (lookup_column cols (column tc));
      if bool_decide (type_kind time_column_type ∈ TEXT_TYPES)
      then Ok (literal_string text_)
      else if bool_decide (type_kind time_column_type ∈ NUMERIC_TYPES)
      then Ok (literal_number text_)
      else if bool_decide (type_kind time_column_type ∈ TEMPORAL_TYPES)
      then Ok (cast (literal_string text_) time_column_type)
      else Ok (match formatted with
               | Some s => literal_string s
               | None => convert_time host time
               end)
  | None => Ok (convert_time host time)
  end.

(** [next(select for select in query.selects if select.alias_or_name ==
    column)] *)
Fixpoint time_column_projection (col : string) (selects : list Expression)
    : result Expression :=
  match selects with
  | [] => Raise StopIteration
  | select :: rest =>
      if bool_decide (alias_or_name select = col) then Ok select
      else time_column_projection col rest
  end.

(** Filters a query on the time column to ensure no data leakage when
    running in incremental mode. *)
Definition _filter_time_column (depth : nat) (m : Model) (query_ : Expression)
    (start end_ : TimeLike) : result Expression :=
  match time_column m with
  | None => Ok query_
  | Some tc =>
      low ← convert_to_time_column depth m start;
      high ← convert_to_time_column depth m end_;
      projection ← time_column_projection (column tc) (expressions query_);
      projection' ←
        (if bool_decide (class_of projection = Alias) then
           match this projection with
           | Exp t => Ok t
           | _ => Raise AttributeError
           end
         else Ok projection);
      let between_ := between projection' low high in
      if arg_truthy (arg query_ "group")
      then having_clause between_ query_
      else where_clause between_ query_
  end.

(** The walk of [render_query]: it does not descend below a SELECT, and
    filters every SELECT it reaches.  The order of the walk does not
    show in the result. *)
Fixpoint filter_selects (depth : nat) (m : Model) (start end_ : TimeLike)
    (node : Expression) : result Expression :=
  match node with
  | Node cls args =>
      if bool_decide (cls = Select) then _filter_time_column depth m node start end_
      else
        '(_, args') ← replace_children
          (fun (_ : unit) (_ : string) n =>
             n' ← filter_selects depth m start end_ n; Ok (tt, [n']))
          tt args;
        Ok (Node cls args')
  end.

(** Renders a model's query, expanding macros with provided kwargs, and
    optionally expanding referenced models. *)
Definition render_query (depth : nat) (m : Model)
    (start end_ latest : option TimeLike)
    (snapshots : list (string * SnapshotView))
    (mapping : list (string * string)) (expand : list string)
    (kwargs : list (string * Value)) : result Expression :=
  query_ ← _render_query depth m (query m) start end_ latest snapshots mapping
             expand None None kwargs;
  filtered ←
    (if bool_decide (kind m = INCREMENTAL)
     then filter_selects depth m (or_epoch start) (or_epoch end_) query_
     else Ok query_);
  Ok (simplify host filtered).
End model.

(** *** Reading the result of the time filter *)

(** The SELECT nodes the walk of [render_query] reaches: it does not
    descend below a SELECT. *)
Fixpoint top_selects (e : Expression) : list Expression :=
  match e with
  | Node cls args =>
      if bool_decide (cls = Select) then [e]
      else
        concat ((fun kv : string * Arg Expression =>
                   match kv.2 with
                   | Exp c => top_selects c
                   | Exps cs => concat (map top_selects cs)
                   | _ => []
                   end) <$> args)
  end.

(** All SELECT nodes of a tree, nested ones included. *)
Fixpoint all_selects (e : Expression) : list Expression :=
  match e with
  | Node cls args =>
      (if bool_decide (cls = Select) then [e] else []) ++
      concat ((fun kv : string * Arg Expression =>
                 match kv.2 with
                 | Exp c => all_selects c
                 | Exps cs => concat (map all_selects cs)
                 | _ => []
                 end) <$> args)
  end.

(** The expression a projection stands for: what an alias names. *)
Definition unaliased (projection : Expression) : option Expression :=
  if bool_decide (class_of projection = Alias) then
    match this projection with
    | Exp t => Some t
    | _ => None
    end
  else Some projection.

End model.

(** ** What the time filter of an incremental model is

    The result of the filter, described from the SELECT, the model and
    the window. *)

Module time_filter.
Import exp macros model.

Section reading.
Variable host : Host.
Variable depth : nat.
Variable m : Model.

(** The mapping of column names to types of the model: the declared
    one, or else, for each projection of the rendered query in turn, its
    name and the target type of the first cast found in it. *)
Definition column_types (cols : list (string * Expression)) : Prop :=
  if bool_decide (columns_ m = []) then
    exists rendered,
      _render_query host depth m (query m) None None None [] [] [] None None []
        = Ok rendered /\
      Forall2 (fun e (kv : string * Expression) =>
                 kv.1 = alias_or_name e /\
                 exists c, find (fun k => bool_decide (k = Cast)) e = Some c /\
                           arg c "to" = Exp kv.2)
              (expressions rendered) cols
  else cols = columns_ m.

(** [cols[n]] for the dictionary built from the pairs [cols]: the last
    pair of a name is the one that counts. *)
Definition bound_to (cols : list (string * Expression)) (n : string) (ty : Expression)
    : Prop :=
  exists before after, cols = before ++ (n, ty) :: after /\ n ∉ after.*1.

(** The text of a time in the declared format of the time column, if
    the column declares a format the dialect can express. *)
Definition time_text (tc : TimeColumn) (time : TimeLike) (text : option string) : Prop :=
  match format tc with
  | None => text = None
  | Some f =>
      if bool_decide (f = "") then text = None
      else
        exists fmt,
          format_time host f (dialect m) = Ok fmt /\
          text = match fmt with
                 | Some fmt =>
                     if bool_decide (fmt = "") then None
                     else Some (strftime host (to_datetime host time) fmt)
                 | None => None
                 end
  end.

(** The bound that stands for a time in a comparison with a column of
    type [ty]: a string literal for a text type, a numeric literal for a
    numeric type, a cast of the string literal for a temporal type, and
    what [exp.convert] makes of the time otherwise. *)
Definition time_bound (ty : Expression) (time : TimeLike) (text : option string)
    (bound : Expression) : Prop :=
  let written := default (time_str host time) text in
  (type_kind ty ∈ TEXT_TYPES -> bound = literal_string written) /\
  (type_kind ty ∈ NUMERIC_TYPES -> bound = literal_number written) /\
  (type_kind ty ∈ TEMPORAL_TYPES -> bound = cast (literal_string written) ty) /\
  (type_kind ty ∉ TEXT_TYPES ++ NUMERIC_TYPES ++ TEMPORAL_TYPES ->
     bound = match text with
             | Some s => literal_string s
             | None => convert_time host time
             end).
End reading.

(** The first projection of a SELECT that goes by the name [n]. *)
Definition first_named (n : string) (sel projection : Expression) : Prop :=
  exists before after,
    expressions sel = before ++ projection :: after /\
    Forall (fun e => alias_or_name e <> n) before /\
    alias_or_name projection = n.

(** The clause the time filter goes into. *)
Definition filter_key (sel : Expression) : string :=
  if arg_truthy (arg sel "group") then "having" else "where".
Definition filter_class (sel : Expression) : Class :=
  if arg_truthy (arg sel "group") then Having else Where.

(** The condition the clause [key] of [sel] holds already, if it has
    that clause. *)
Definition existing_condition (key : string) (sel : Expression)
    (existing : option Expression) : Prop :=
  match existing with
  | None => arg sel key = NoArg
  | Some c => exists clause, arg sel key = Exp clause /\ this clause = Exp c
  end.

(** [sel] with [predicate] in its clause [key], after the condition the
    clause held already. *)
Definition with_condition (key : string) (into : Class) (existing : option Expression)
    (predicate : Expression) (sel : Expression) : Expression :=
  Node (class_of sel)
    (set (args_of sel) key
       (Exp (Node into
               [("this", Exp (match existing with
                              | None => predicate
                              | Some c => and_ c predicate
                              end))]))).

(** [sel'] is [sel] with the time filter of the model for the window
    from [start] to [end_]: the predicate [p BETWEEN low AND high], where
    [p] is what the first projection named as the time column stands for
    and the bounds are the two times in the format and the type of the
    time column, conjoined to the WHERE clause of a SELECT without GROUP
    BY and to the HAVING clause otherwise. *)
Definition time_filter_of (host : Host) (depth : nat) (m : Model) (tc : TimeColumn)
    (start end_ : TimeLike) (sel sel' : Expression) : Prop :=
  exists cols ty projection p written_start written_end low high existing,
    column_types host depth m cols /\
    bound_to cols (column tc) ty /\
    first_named (column tc) sel projection /\
    unaliased projection = Some p /\
    time_text host m tc start written_start /\
    time_text host m tc end_ written_end /\
    time_bound host ty start written_start low /\
    time_bound host ty end_ written_end high /\
    existing_condition (filter_key sel) sel existing /\
    sel' = with_condition (filter_key sel) (filter_class sel) existing
             (between p low high) sel.
End time_filter.

(** ** Concrete hosts, queries and models used to run the embedding *)

Module example.
Import exp macros model.

(** An interpreter that knows literals only. *)
Definition literal_python (locals : gmap string Value) (e : Expression) : result Value :=
  match e with
  | Node Boolean [("this", Flag b)] => Ok (VBool b)
  | Node Literal [("this", Str s); ("is_string", Flag true)] => Ok (VStr s)
  | _ => Raise ValueError
  end.

Definition macro_host : macros.Host :=
  macros.mkHost (fun _ => Some "") (fun _ => "") literal_python.

Definition registry : gmap string MacroFunction := list_to_map clause_macros.

(** A schedule that fires every minute. *)
Definition every_minute (cron : string) (n : nat) : list Z :=
  (fun i => 60 * Z.of_nat (S i))%Z <$> seq 0 n.

Definition identifier (s : string) : Expression := Node Identifier [("this", Str s)].
Definition column_ (s : string) : Expression := Node Column [("this", Exp (identifier s))].
Definition table (s : string) : Expression := Node Table [("this", Exp (identifier s))].
Definition data_type (kind_ : string) : Expression := Node DataType [("this", Str kind_)].

(** Dates: this host knows the first of January 2021. *)
Definition day_2021_01_01 : Z := 1609459200000.
Definition to_datetime_ (t : TimeLike) : Z :=
  match t with
  | TimeStr "2021-01-01" => day_2021_01_01
  | TimeStr _ => 0
  | TimeInt n => n
  | TimeDatetime n => n
  end.
Definition strftime_ (d : Z) (fmt : string) : string :=
  if bool_decide (d = day_2021_01_01) && bool_decide (fmt = "%Y%m%d")
  then "20210101" else "".

Definition host : model.Host :=
  model.mkHost macro_host registry every_minute
    (fun s e => (to_datetime_ s, to_datetime_ e)) to_datetime_ (fun _ _ _ => [])
    strftime_ (fun f _ => Ok (Some f))
    (fun t => match t with TimeStr s => s | _ => "" end)
    (fun t => literal_string (match t with TimeStr s => s | _ => "" end))
    (fun n args => Node Table (("this", Exp (identifier n)) :: args))
    (fun e => e).

(** [SELECT x FROM t @WHERE(<condition>) x > 1] *)
Definition x_gt_1 : Expression :=
  Node GT [("this", Exp (column_ "x")); ("expression", Exp (literal_number "1"))].
Definition where_x_gt_1 : Expression := Node Where [("this", Exp x_gt_1)].
Definition boolean (b : bool) : Expression := Node Boolean [("this", Flag b)].
Definition select_x_from_t (where_ : list (string * Arg Expression)) : Expression :=
  Node Select
    ([("expressions", Exps [column_ "x"]);
      ("from", Exp (Node From [("expressions", Exps [table "t"])]))] ++ where_).
Definition select_macro_where (condition : bool) : Expression :=
  select_x_from_t [("where", Exp (macro_call "WHERE" [boolean condition; where_x_gt_1]))].

(** [SELECT x FROM t @WHERE(TRUE) 1 = 1]: a clause macro whose call holds
    no column and no table. *)
Definition where_1_eq_1 : Expression :=
  Node Where [("this", Exp (Node EQ [("this", Exp (literal_number "1"));
                                     ("expression", Exp (literal_number "1"))]))].
Definition where_literal_call : Expression :=
  macro_call "WHERE" [boolean true; where_1_eq_1].
Definition select_macro_where_literal : Expression :=
  select_x_from_t [("where", Exp where_literal_call)].

(** [@foo(x)], a call of a macro nobody registered, and [@foo(1)] *)
Definition unknown_call : Expression := macro_call "foo" [column_ "x"].
Definition unknown_call_literal : Expression := macro_call "foo" [literal_number "1"].

(** [@DEF(x, 1)] and [SELECT @DEF(x, 1)] *)
Definition def_x_1 : Expression :=
  Node MacroDef [("this", Exp (identifier "x")); ("expression", Exp (literal_number "1"))].
Definition select_def : Expression := Node Select [("expressions", Exps [def_x_1])].

(** [SELECT CAST(ds AS TEXT) AS ds FROM <source>] *)
Definition ds_as_text : Expression :=
  Node Alias [("this", Exp (cast (column_ "ds") (data_type "TEXT")));
              ("alias", Exp (identifier "ds"))].
Definition select_ds (source : Expression) (more : list (string * Arg Expression))
    : Expression :=
  Node Select
    ([("expressions", Exps [ds_as_text]);
      ("from", Exp (Node From [("expressions", Exps [source])]))] ++ more).
Definition inner_select : Expression :=
  Node Select [("expressions", Exps [column_ "ds"]);
               ("from", Exp (Node From [("expressions", Exps [table "raw"])]))].
Definition nested_source : Expression :=
  Node Subquery [("this", Exp inner_select);
                 ("alias", Exp (Node TableAlias [("this", Exp (identifier "sub"))]))].

Definition ds_column : TimeColumn := mkTimeColumn "ds" (Some "%Y%m%d").

(** An incremental model over a table, and one over a subquery. *)
Definition items : Model :=
  mkModel "sushi.items" INCREMENTAL "" "@daily" (Some ds_column) []
    (select_ds (table "raw") []) [] [].
Definition nested : Model :=
  mkModel "sushi.nested" INCREMENTAL "" "@daily" (Some ds_column) []
    (select_ds nested_source []) [] [].

Definition day : option TimeLike := Some (TimeStr "2021-01-01").
Definition ds_between : Expression :=
  between (cast (column_ "ds") (data_type "TEXT"))
          (literal_string "20210101") (literal_string "20210101").

Definition minutely : Model :=
  mkModel "db.minutely" FULL "" "* * * * *" None []
    (Node Select [("expressions", Exps [column_ "x"])]) [] [].

(** A simplifier that does to a range predicate what the repository's
    test of [render_query] shows of the library's: [x BETWEEN low AND
    high] becomes [x <= high AND x >= low]. *)
Fixpoint rewrite_between (e : Expression) : Expression :=
  match e with
  | Node cls args =>
      if bool_decide (cls = Between) then
        match get args "this", get args "low", get args "high" with
        | Exp x, Exp low, Exp high =>
            Node And
              [("this", Exp (Node (Other "LTE") [("this", Exp x); ("expression", Exp high)]));
               ("expression",
                Exp (Node (Other "GTE") [("this", Exp x); ("expression", Exp low)]))]
        | _, _, _ => e
        end
      else
        Node cls
          ((fix go (l : list (string * Arg Expression)) : list (string * Arg Expression) :=
              match l with
              | [] => []
              | (k, a) :: rest =>
                  (k, match a with
                      | Exp c => Exp (rewrite_between c)
                      | Exps cs => Exps (map rewrite_between cs)
                      | other => other
                      end) :: go rest
              end) args)
  end.

Definition rewriting_host : model.Host :=
  model.mkHost macro_host registry every_minute
    (fun s e => (to_datetime_ s, to_datetime_ e)) to_datetime_ (fun _ _ _ => [])
    strftime_ (fun f _ => Ok (Some f))
    (fun t => match t with TimeStr s => s | _ => "" end)
    (fun t => literal_string (match t with TimeStr s => s | _ => "" end))
    (fun n args => Node Table (("this", Exp (identifier n)) :: args))
    rewrite_between.

(** [CAST(ds AS TEXT) <= '20210101' AND CAST(ds AS TEXT) >= '20210101'] *)
Definition ds_in_range : Expression :=
  Node And
    [("this", Exp (Node (Other "LTE")
                     [("this", Exp (cast (column_ "ds") (data_type "TEXT")));
                      ("expression", Exp (literal_string "20210101"))]));
     ("expression", Exp (Node (Other "GTE")
                           [("this", Exp (cast (column_ "ds") (data_type "TEXT")));
                            ("expression", Exp (literal_string "20210101"))]))].

(** A model that is rebuilt in full, over a given query. *)
Definition full_model (q : Expression) : Model :=
  mkModel "db.full" FULL "" "@daily" None [] q [] [].
End example.

(** ** The queries of a context diff *)

Module context_diff_methods.
Import snapshot context_diff.

(** [bool(self.added or self.removed or self.modified_snapshots)] *)
Definition has_differences (d : ContextDiff.t) : bool :=
  negb (bool_decide (ContextDiff.added d = ∅))
  || negb (bool_decide (ContextDiff.removed d = ∅))
  || negb (bool_decide (ContextDiff.modified_snapshots d = ∅)).

(** Modelled from the spec: [data_hash_matches] compares only the
    data_hash component of the two fingerprints; here the other side is a
    snapshot. *)
Definition data_hash_matches_snapshot (s other : Snapshot) : bool :=
  bool_decide (data_hash (fingerprint s) = data_hash (fingerprint other)).

(** Returns whether or not a model was directly modified in this
    context. *)
Definition directly_modified (h : heap) (d : ContextDiff.t) (model_name : string)
    : result bool :=
  match ContextDiff.modified_snapshots d !! model_name with
  | None => Ok false
  | Some (current, previous) =>
      c ← deref h current;
      p ← deref h previous;
      Ok (negb (data_hash_matches_snapshot c p))
  end.

Section text_diff.
(** [old.model.text_diff(new.model)]: the models of two snapshots and
    their textual difference are not part of the snapshot fields kept
    here. *)
Variable model_text_diff : Snapshot -> Snapshot -> string.

(** Finds the difference of a model between the current and remote
    environment. *)
Definition text_diff (h : heap) (d : ContextDiff.t) (model : string) : result string :=
  if bool_decide (model ∈ dom (ContextDiff.snapshots d)) then
    match ContextDiff.modified_snapshots d !! model with
    | None => Ok ""
    | Some (new, old) =>
        n ← deref h new;
        o ← deref h old;
        Ok (model_text_diff o n)
    end
  else Raise (SQLMeshError ("`" +:+ model +:+ "` does not exist.")).
End text_diff.
End context_diff_methods.

(** ** Reasoning about the error monad *)

Lemma bind_Ok {A B} (m : result A) (f : A -> result B) (b : B) :
  m ≫= f = Ok b -> exists a, m = Ok a /\ f a = Ok b.
Proof. destruct m as [a|e]; simpl; [eauto | discriminate]. Qed.

Lemma of_option_Ok {A} (e : exn) (o : option A) (a : A) :
  of_option e o = Ok a -> o = Some a.
Proof. destruct o; simpl; congruence. Qed.

Ltac inv_result :=
  repeat match goal with
  | H : Ok _ = Ok _ |- _ => injection H as H; try subst
  | H : Raise _ = Ok _ |- _ => discriminate H
  | H : _ ≫= _ = Ok _ |- _ =>
      let a := fresh "a" in
      let Ha := fresh "Ha" in
      apply bind_Ok in H as (a & Ha & H)
  | H : of_option _ _ = Ok _ |- _ => apply of_option_Ok in H
  end.

Module context_diff_facts.
Import snapshot context_diff relocation.

Arguments merge_one : simpl never.
Arguments modified_entry : simpl never.
Arguments deref : simpl never.

(** *** The first loop only allocates *)

Lemma deref_Some (h : heap) (r : ref) (s : Snapshot) :
  deref h r = Ok s <-> h !! r = Some s.
Proof.
  unfold deref. destruct (h !! r); simpl; split; congruence.
Qed.

Lemma assign_copy (h : heap) (s s' : Snapshot) :
  assign (h ++ [s]) (length h) s' = h ++ [s'].
Proof.
  unfold assign. rewrite insert_app_r_alt by lia.
  by rewrite Nat.sub_diag.
Qed.

Ltac merge_one_cases H n mi stored l :=
  unfold merge_one in H;
  let s0 := fresh "s0" in
  let Hs0 := fresh "Hs0" in
  let e := fresh "e" in
  let He := fresh "He" in
  let Hst := fresh "Hst" in
  let Hm := fresh "Hm" in
  let m := fresh "m" in
  let old := fresh "old" in
  let Hold := fresh "Hold" in
  apply bind_Ok in H as (s0 & Hs0 & H);
  apply deref_Some in Hs0;
  destruct (stored (snapshot_id s0)) as [existing|] eqn:Hst;
  [ apply bind_Ok in H as (e & He & H); apply deref_Some in He |];
  unfold copy in H;
  (destruct (mi !! n) as [m|] eqn:Hm;
   [ apply bind_Ok in H as (old & Hold & H); apply of_option_Ok in Hold |]);
  injection H as H; subst; simpl;
  rewrite ?assign_copy.

(** One iteration of the first loop appends one object to the heap. *)
Lemma merge_one_objects mi stored l n r l' :
  merge_one mi stored l (n, r) = Ok l' ->
  exists s, objects l' = objects l ++ [s].
Proof. intros H. merge_one_cases H n mi stored l; eauto. Qed.

Lemma merge_one_merged mi stored l n r l' :
  merge_one mi stored l (n, r) = Ok l' ->
  merged_snapshots l' = <[n := length (objects l)]> (merged_snapshots l).
Proof. intros H. merge_one_cases H n mi stored l; eauto. Qed.

Lemma merge_one_modified mi stored l n r l' :
  merge_one mi stored l (n, r) = Ok l' ->
  modified_snapshots l' = modified_snapshots l \/
  (is_Some (mi !! n) /\
   exists p, modified_snapshots l' = <[n := p]> (modified_snapshots l)).
Proof. intros H. merge_one_cases H n mi stored l; eauto. Qed.

Lemma merge_one_new mi stored l n r l' :
  merge_one mi stored l (n, r) = Ok l' ->
  new_snapshots l' = new_snapshots l \/
  new_snapshots l' = new_snapshots l ++ [length (objects l)].
Proof. intros H. merge_one_cases H n mi stored l; eauto. Qed.

(** *** Invariants of the first loop *)

Lemma merge_all_objects mi stored items : forall l l',
  merge_all mi stored l items = Ok l' ->
  exists ext, objects l' = objects l ++ ext /\ length ext = length items.
Proof.
  induction items as [|[n r] items IH]; simpl; intros l l' H.
  - inv_result. exists []. by rewrite app_nil_r.
  - inv_result. apply merge_one_objects in Ha as [s Hs].
    apply IH in H as (ext & -> & Hlen). rewrite Hs, <- app_assoc.
    exists ([s] ++ ext). split; [done | simpl; lia].
Qed.

Lemma merge_all_merged_dom mi stored items : forall l l',
  merge_all mi stored l items = Ok l' ->
  dom (merged_snapshots l') = dom (merged_snapshots l) ∪ keys items.
Proof.
  unfold keys.
  induction items as [|[n r] items IH]; simpl; intros l l' H.
  - inv_result. set_solver.
  - inv_result. apply merge_one_merged in Ha.
    apply IH in H. rewrite H, Ha, dom_insert_L. set_solver.
Qed.

Lemma merge_all_modified_dom mi stored items : forall l l',
  merge_all mi stored l items = Ok l' ->
  dom (modified_snapshots l') ⊆ dom (modified_snapshots l) ∪ (keys items ∩ dom mi).
Proof.
  unfold keys.
  induction items as [|[n r] items IH]; simpl; intros l l' H.
  - inv_result. set_solver.
  - inv_result. apply IH in H.
    apply merge_one_modified in Ha as [Heq | [Hin [p Heq]]]; rewrite Heq in H.
    + set_solver.
    + apply elem_of_dom in Hin. rewrite dom_insert_L in H. set_solver.
Qed.

(** The references appended to new_snapshots are freshly allocated, in
    increasing order. *)
Lemma merge_all_new mi stored items : forall l l',
  merge_all mi stored l items = Ok l' ->
  exists news,
    new_snapshots l' = new_snapshots l ++ news /\
    Forall (fun c => length (objects l) <= c < length (objects l')) news /\
    NoDup news.
Proof.
  induction items as [|[n r] items IH]; simpl; intros l l' H.
  - inv_result. exists []. rewrite app_nil_r. repeat split; constructor.
  - inv_result.
    pose proof (merge_one_objects _ _ _ _ _ _ Ha) as [s Hs].
    pose proof (merge_all_objects _ _ _ _ _ H) as (ext & Hext & _).
    apply IH in H as (news & Hnew & Hrange & Hsorted).
    assert (Hlen : length (objects a) = S (length (objects l))).
    { rewrite Hs, length_app. simpl. lia. }
    assert (Hge : length (objects a) <= length (objects l')).
    { rewrite Hext, length_app. lia. }
    apply merge_one_new in Ha as [Heq | Heq]; rewrite Heq in Hnew.
    + exists news. repeat split; [done | | done].
      eapply Forall_impl; [exact Hrange |]. simpl. lia.
    + exists (length (objects l) :: news). rewrite <- app_assoc in Hnew.
      repeat split; [done | |].
      * constructor; [lia |].
        eapply Forall_impl; [exact Hrange |]. simpl. lia.
      * constructor; [| done].
        intros Hin. rewrite Forall_forall in Hrange.
        apply Hrange in Hin. lia.
Qed.

Lemma modified_info_of_keys h existing_info added items : forall mods,
  modified_info_of h existing_info added items = Ok mods ->
  forall n, n ∈ mods.*1 -> n ∈ keys items /\ n ∉ added.
Proof.
  unfold keys.
  induction items as [|[n0 r] items IH]; simpl; intros mods H n Hn.
  - inv_result. set_solver.
  - inv_result. specialize (IH _ Ha0 n).
    unfold modified_entry in Ha.
    case_bool_decide as Hadd.
    + inv_result. set_solver.
    + inv_result. case_bool_decide; inv_result; set_solver.
Qed.

Lemma snapshot_ids_valid h items : forall ids,
  snapshot_ids h items = Ok ids ->
  forall n r, (n, r) ∈ items -> is_Some (h !! r).
Proof.
  induction items as [|[n0 r0] items IH]; simpl; intros ids Hids n r Hin.
  - by apply elem_of_nil in Hin.
  - inv_result. apply elem_of_cons in Hin as [[= -> ->] | Hin].
    + apply deref_Some in Ha. eauto.
    + eauto.
Qed.

(** The dictionaries built by the first loop: every local name is
    merged, and only names that are present on both sides are modified. *)
Lemma merged_state_domains env snapshots rd h l :
  merged_state env snapshots rd h = Ok l ->
  dom (merged_snapshots l) = keys snapshots /\
  dom (modified_snapshots l) ⊆ keys snapshots /\
  dom (modified_snapshots l) ##
    keys snapshots ∖ dom (existing_info_of (from_option env_snapshots [] env)).
Proof.
  unfold merged_state. intros H. inv_result.
  pose proof (merge_all_merged_dom _ _ _ _ _ H) as Hm.
  pose proof (merge_all_modified_dom _ _ _ _ _ H) as Hd.
  pose proof (modified_info_of_keys _ _ _ _ _ Ha) as Hk.
  simpl in Hm, Hd.
  split; [set_solver | split; [set_solver |]].
  intros n Hn Hadded. apply Hd in Hn.
  assert (Hin : n ∈ dom (list_to_map (M := gmap string SnapshotTableInfo) (reverse a)))
    by set_solver.
  rewrite dom_list_to_map_L, fmap_reverse in Hin.
  rewrite elem_of_list_to_set, elem_of_reverse in Hin.
  apply Hk in Hin as [_ Hnot]. by apply Hnot.
Qed.

(** *** The second loop only rewrites the version of new snapshots *)

Section reuse_facts.
Variable fresh_version : string -> SnapshotFingerprint -> string.

Lemma reuse_version_fields remote s s' :
  reuse_version fresh_version remote s = Ok s' ->
  exists v, s' = with_version v s.
Proof using Type.
  unfold reuse_version, set_version. intros H.
  assert (Hid : s = with_version (version s) s) by by destruct s.
  destruct (remote !! name s) as [[rvs ts]|]; [| inv_result; eauto].
  destruct (previous_version s) as [previous|]; [| inv_result; eauto].
  destruct (data_hash_matches s previous); [| inv_result; eauto].
  inv_result. repeat case_bool_decide; inv_result; eauto.
Qed.

Lemma reuse_all_spec remote new : forall h h',
  NoDup new ->
  reuse_all fresh_version remote h new = Ok h' ->
  length h' = length h /\
  (forall r, r ∉ new -> h' !! r = h !! r) /\
  (forall c, c ∈ new -> exists s s',
      h !! c = Some s /\ reuse_version fresh_version remote s = Ok s' /\
      h' !! c = Some s').
Proof using Type.
  induction new as [|c new IH]; simpl; intros h h' Hnd H.
  - inv_result. split; [done |]. split; [done |].
    intros c Hc. by apply elem_of_nil in Hc.
  - apply NoDup_cons in Hnd as [Hc Hnd]. inv_result.
    apply deref_Some in Ha.
    destruct (IH _ _ Hnd H) as (Hlen & Hout & Hin).
    unfold assign in *. rewrite length_insert in Hlen.
    split; [done |]. split.
    + intros r Hr. apply not_elem_of_cons in Hr as [Hne Hr].
      rewrite (Hout r Hr). by apply list_lookup_insert_ne.
    + intros c' Hc'. apply elem_of_cons in Hc' as [-> | Hc'].
      * exists a, a0. split; [done |]. split; [done |].
        rewrite (Hout c Hc). apply list_lookup_insert_eq.
        by eapply lookup_lt_Some.
      * destruct (Hin c' Hc') as (s & s' & Hs & Hr & Hs').
        exists s, s'. split; [| done].
        rewrite <- Hs. symmetry. apply list_lookup_insert_ne.
        intros ->. done.
Qed.

(** The first loop of [create] starts from empty dictionaries, so the
    references it collects are fresh and pairwise distinct. *)
Lemma merged_state_new env snapshots rd h l :
  merged_state env snapshots rd h = Ok l ->
  (exists ext, objects l = h ++ ext) /\
  Forall (fun c => length h <= c < length (objects l)) (new_snapshots l) /\
  NoDup (new_snapshots l).
Proof using Type.
  unfold merged_state. intros H. inv_result.
  pose proof (merge_all_objects _ _ _ _ _ H) as (ext & Hext & _).
  pose proof (merge_all_new _ _ _ _ _ H) as (news & Hnew & Hrange & Hnd).
  simpl in *. subst news. eauto.
Qed.

(** The heap after [create] extends the heap before it. *)
Lemma create_extends environment snapshots rd h d h' :
  create fresh_version environment snapshots rd h = Ok (d, h') ->
  (exists ext, h' = h ++ ext) /\
  Forall (fun c => length h <= c < length h') (ContextDiff.new_snapshots d).
Proof using Type.
  unfold create. destruct (resolve_environment environment rd) as [env ename].
  intros H. inv_result. simpl.
  apply merged_state_new in Ha as ([ext Hext] & Hrange & Hnd).
  apply (reuse_all_spec _ _ _ _ Hnd) in Ha0 as (Hlen & Hout & _).
  rewrite Hlen. split; [| done].
  exists (drop (length h) h').
  rewrite <- (take_drop (length h) h') at 1. f_equal.
  apply list_eq. intros i.
  destruct (decide (i < length h)) as [Hi | Hi].
  - rewrite lookup_take_lt by done. rewrite Hout.
    + rewrite Hext. by apply lookup_app_l.
    + intros Hin. rewrite Forall_forall in Hrange.
      apply Hrange in Hin. lia.
  - rewrite lookup_take_ge by lia. symmetry. apply lookup_ge_None. lia.
Qed.
End reuse_facts.

(** *** Allocation is position independent *)

Lemma inserted_lookup n x h1 h2 r :
  inserted n x h1 h2 -> h2 !! shift n (length x) r = h1 !! r.
Proof.
  intros (h & ext & <- & -> & ->). unfold shift. case_decide as Hr.
  - by rewrite !lookup_app_l by done.
  - rewrite (lookup_app_r h ext) by lia.
    rewrite lookup_app_r by lia. rewrite lookup_app_r by lia.
    f_equal. lia.
Qed.

Lemma inserted_length n x h1 h2 :
  inserted n x h1 h2 -> length h2 = shift n (length x) (length h1).
Proof.
  intros (h & ext & <- & -> & ->). unfold shift. rewrite !length_app.
  case_decide; lia.
Qed.

Lemma inserted_app n x h1 h2 s :
  inserted n x h1 h2 -> inserted n x (h1 ++ [s]) (h2 ++ [s]).
Proof.
  intros (h & ext & <- & -> & ->). exists h, (ext ++ [s]).
  by rewrite <- !app_assoc.
Qed.

Lemma inserted_assign n x h1 h2 r s :
  inserted n x h1 h2 ->
  inserted n x (assign h1 r s) (assign h2 (shift n (length x) r) s).
Proof.
  intros (h & ext & <- & -> & ->). unfold assign, shift. case_decide as Hr.
  - exists (<[r := s]> h), ext. rewrite length_insert.
    by rewrite !insert_app_l by done.
  - exists h, (<[r - length h := s]> ext). split; [done |].
    rewrite (insert_app_r_alt h ext) by lia. split; [done |].
    rewrite insert_app_r_alt by lia. f_equal.
    rewrite insert_app_r_alt by lia. do 2 f_equal. lia.
Qed.

Lemma inserted_deref n x h1 h2 r s :
  inserted n x h1 h2 -> deref h1 r = Ok s -> deref h2 (shift n (length x) r) = Ok s.
Proof.
  intros Hins Hd. apply deref_Some in Hd. apply deref_Some.
  by rewrite (inserted_lookup _ _ _ _ _ Hins).
Qed.

Lemma shift_old n k r : r < n -> shift n k r = r.
Proof. intros. unfold shift. by case_decide. Qed.

Lemma merge_one_shift n x mi stored l1 l1' h2 item :
  (forall id e, stored id = Some e -> e < n) ->
  item.2 < n ->
  inserted n x (objects l1) h2 ->
  merge_one mi stored l1 item = Ok l1' ->
  exists h2',
    merge_one mi stored (shift_locals n (length x) h2 l1) item
      = Ok (shift_locals n (length x) h2' l1') /\
    inserted n x (objects l1') h2'.
Proof.
  destruct item as [nm r]. simpl. intros Hstored Hr Hins H.
  pose proof (inserted_length _ _ _ _ Hins) as Hlen.
  unfold merge_one in *. apply bind_Ok in H as (s0 & Hs0 & H).
  apply (inserted_deref _ _ _ _ _ _ Hins) in Hs0.
  rewrite shift_old in Hs0 by done. cbn [objects shift_locals]. rewrite Hs0. simpl.
  destruct (stored (snapshot_id s0)) as [existing|] eqn:Hst.
  - apply bind_Ok in H as (e & He & H).
    apply (inserted_deref _ _ _ _ _ _ Hins) in He.
    rewrite shift_old in He by eauto. rewrite He. simpl.
    unfold copy in *.
    destruct (mi !! nm) as [m|] eqn:Hm.
    + apply bind_Ok in H as (old & Hold & H). rewrite Hold. simpl.
      apply of_option_Ok in Hold. injection H as <-.
      exists (h2 ++ [e]). split; [| by apply inserted_app].
      unfold shift_locals. simpl. rewrite !fmap_insert, Hlen. simpl.
      by rewrite (shift_old _ _ existing), (shift_old _ _ old) by eauto.
    + injection H as <-.
      exists (h2 ++ [e]). split; [| by apply inserted_app].
      unfold shift_locals. simpl. by rewrite !fmap_insert, Hlen.
  - unfold copy in *.
    destruct (mi !! nm) as [m|] eqn:Hm.
    + apply bind_Ok in H as (old & Hold & H). rewrite Hold. simpl.
      apply of_option_Ok in Hold. injection H as <-.
      eexists. split.
      * unfold shift_locals. simpl.
        rewrite !fmap_insert, fmap_app, Hlen. simpl.
        rewrite (shift_old _ _ old) by eauto. reflexivity.
      * simpl. apply inserted_assign. by apply inserted_app.
    + injection H as <-.
      exists (h2 ++ [s0]). split; [| by apply inserted_app].
      unfold shift_locals. simpl. by rewrite !fmap_insert, fmap_app, Hlen.
Qed.

Lemma merge_all_shift n x mi stored items : forall l1 l1' h2,
  (forall id e, stored id = Some e -> e < n) ->
  Forall (fun item : string * nat => item.2 < n) items ->
  inserted n x (objects l1) h2 ->
  merge_all mi stored l1 items = Ok l1' ->
  exists h2',
    merge_all mi stored (shift_locals n (length x) h2 l1) items
      = Ok (shift_locals n (length x) h2' l1') /\
    inserted n x (objects l1') h2'.
Proof.
  induction items as [|item items IH]; simpl; intros l1 l1' h2 Hst Hitems Hins H.
  - inv_result. eauto.
  - apply Forall_cons in Hitems as [Hitem Hitems]. inv_result.
    destruct (merge_one_shift _ _ _ _ _ _ _ _ Hst Hitem Hins Ha) as (h2a & -> & Hins').
    simpl. eauto.
Qed.

Lemma modified_info_of_agree h g existing_info added items :
  (forall n r, (n, r) ∈ items -> g !! r = h !! r) ->
  modified_info_of g existing_info added items
    = modified_info_of h existing_info added items.
Proof.
  induction items as [|[n r] items IH]; simpl; intros Hagree; [done |].
  rewrite IH by (intros n' r' Hin; apply (Hagree n' r'); set_solver).
  unfold modified_entry, deref. rewrite (Hagree n r) by set_solver. done.
Qed.

Lemma snapshot_ids_agree h g items :
  (forall n r, (n, r) ∈ items -> g !! r = h !! r) ->
  snapshot_ids g items = snapshot_ids h items.
Proof.
  induction items as [|[n r] items IH]; simpl; intros Hagree; [done |].
  rewrite IH by (intros n' r' Hin; apply (Hagree n' r'); set_solver).
  unfold deref. rewrite (Hagree n r) by set_solver. done.
Qed.

Lemma merged_state_valid env snapshots rd h l :
  merged_state env snapshots rd h = Ok l ->
  Forall (fun item : string * nat => item.2 < length h) snapshots.
Proof.
  unfold merged_state. intros H. inv_result.
  apply Forall_forall. intros [n r] Hin. simpl.
  destruct (snapshot_ids_valid _ _ _ Ha0 _ _ Hin) as [s Hs].
  by eapply lookup_lt_Some.
Qed.

Lemma merged_state_shift env snapshots rd h x l1 :
  (forall ids id e, get_snapshots rd ids id = Some e -> e < length h) ->
  merged_state env snapshots rd h = Ok l1 ->
  exists h2',
    merged_state env snapshots rd (h ++ x)
      = Ok (shift_locals (length h) (length x) h2' l1) /\
    inserted (length h) x (objects l1) h2'.
Proof.
  intros Hrd H. pose proof (merged_state_valid _ _ _ _ _ H) as Hvalid.
  assert (Hagree : forall n r, (n, r) ∈ snapshots -> (h ++ x) !! r = h !! r).
  { intros n r Hin. rewrite Forall_forall in Hvalid.
    apply lookup_app_l. exact (Hvalid _ Hin). }
  unfold merged_state in *.
  rewrite (modified_info_of_agree h) by done.
  rewrite (snapshot_ids_agree h) by done.
  inv_result. rewrite Ha, Ha0. simpl.
  assert (Hins : inserted (length h) x h (h ++ x)).
  { exists h, []. by rewrite !app_nil_r. }
  eapply (merge_all_shift _ _ _ _ _ (mkLocals h ∅ ∅ [] ∅)) in H as (h2' & H & Hins');
    [| by eauto | done | exact Hins].
  exists h2'. split; [| done].
  unfold shift_locals in H at 1. simpl in H. by rewrite !fmap_empty in H.
Qed.

Lemma value_of_shift n x h1 h2 d :
  inserted n x h1 h2 ->
  value_of h2 (shift_diff n (length x) d) = value_of h1 d.
Proof.
  intros Hins. unfold value_of, shift_diff. simpl. f_equal.
  - rewrite <- map_fmap_compose. apply map_fmap_ext. intros k [a b] _. simpl.
    by rewrite !(inserted_lookup _ _ _ _ _ Hins).
  - rewrite <- map_fmap_compose. apply map_fmap_ext. intros k r _. simpl.
    by rewrite (inserted_lookup _ _ _ _ _ Hins).
  - rewrite <- list_fmap_compose. apply list_fmap_ext. intros i r _. simpl.
    by rewrite (inserted_lookup _ _ _ _ _ Hins).
Qed.

Section shift_create.
Variable fresh_version : string -> SnapshotFingerprint -> string.

Lemma reuse_all_shift n x remote new : forall h1 h1' h2,
  inserted n x h1 h2 ->
  reuse_all fresh_version remote h1 new = Ok h1' ->
  exists h2',
    reuse_all fresh_version remote h2 (shift n (length x) <$> new) = Ok h2' /\
    inserted n x h1' h2'.
Proof using Type.
  induction new as [|c new IH]; simpl; intros h1 h1' h2 Hins H.
  - inv_result. eauto.
  - inv_result. rewrite (inserted_deref _ _ _ _ _ _ Hins Ha). simpl.
    rewrite Ha0. simpl. eapply IH; [| exact H]. by apply inserted_assign.
Qed.

Lemma create_shift environment snapshots rd h x d h1 :
  (forall ids id e, get_snapshots rd ids id = Some e -> e < length h) ->
  create fresh_version environment snapshots rd h = Ok (d, h1) ->
  exists h2,
    create fresh_version environment snapshots rd (h ++ x)
      = Ok (shift_diff (length h) (length x) d, h2) /\
    inserted (length h) x h1 h2.
Proof using Type.
  unfold create. destruct (resolve_environment environment rd) as [env ename].
  intros Hrd H. inv_result.
  destruct (merged_state_shift _ _ _ _ x _ Hrd Ha) as (ha & -> & Hins).
  simpl.
  destruct (reuse_all_shift _ _ _ _ _ _ _ Hins Ha0) as (h2 & -> & Hins').
  simpl. eauto.
Qed.
End shift_create.

(** *** What the first loop does with each local snapshot *)

Lemma snapshot_ids_elem h items : forall ids,
  snapshot_ids h items = Ok ids ->
  forall n r s, (n, r) ∈ items -> h !! r = Some s -> snapshot_id s ∈ ids.
Proof.
  induction items as [|[n0 r0] items IH]; simpl; intros ids Hids n r s Hin Hs.
  - by apply elem_of_nil in Hin.
  - inv_result. apply elem_of_cons in Hin as [[= -> ->] | Hin].
    + apply deref_Some in Ha. rewrite Hs in Ha. injection Ha as ->. set_solver.
    + apply elem_of_cons. right. eauto.
Qed.

(** Every local snapshot is either found in the store or copied into
    new_snapshots under the same identifier, and the previous snapshot of
    every modified name is found in the store. *)
Lemma merge_all_accounts mi stored items : forall l l',
  Forall (fun item : string * nat => item.2 < length (objects l)) items ->
  merge_all mi stored l items = Ok l' ->
  forall n r, (n, r) ∈ items ->
  exists s0, objects l !! r = Some s0 /\
    (is_Some (stored (snapshot_id s0)) \/
     exists c s, c ∈ new_snapshots l' /\ objects l' !! c = Some s /\
                 snapshot_id s = snapshot_id s0) /\
    (forall m, mi !! n = Some m -> is_Some (stored (info_snapshot_id m))).
Proof.
  induction items as [|[n0 r0] items IH]; simpl; intros l l' Hvalid H n r Hin.
  - by apply elem_of_nil in Hin.
  - apply Forall_cons in Hvalid as [Hr0 Hvalid]. simpl in Hr0. inv_result.
    pose proof (merge_one_objects _ _ _ _ _ _ Ha) as [s1 Hs1].
    pose proof (merge_all_objects _ _ _ _ _ H) as (ext & Hext & _).
    pose proof (merge_all_new _ _ _ _ _ H) as (news & Hnews & _).
    apply elem_of_cons in Hin as [[= -> ->] | Hin].
    + clear IH. merge_one_cases Ha n0 mi stored l.
      * exists s0. split; [done |]. split; [eauto |].
        intros m' [= <-]. eauto.
      * exists s0. split; [done |]. split; [eauto | done].
      * exists s0. split; [done |]. split; [| intros m' [= <-]; eauto].
        right. exists (length (objects l)), (with_previous_versions (all_versions m) s0).
        simpl in *. rewrite assign_copy in Hext, Hs1.
        split; [rewrite Hnews; set_solver |]. split; [| done].
        rewrite Hext. apply lookup_app_l_Some. apply list_lookup_middle. done.
      * exists s0. split; [done |]. split; [| done].
        right. exists (length (objects l)), s0. simpl in *.
        split; [rewrite Hnews; set_solver |]. split; [| done].
        rewrite Hext. apply lookup_app_l_Some. apply list_lookup_middle. done.
    + assert (Hvalid' : Forall (fun item : string * nat => item.2 < length (objects a)) items).
      { eapply Forall_impl; [exact Hvalid |]. simpl. intros x Hx.
        rewrite Hs1, length_app. lia. }
      destruct (IH _ _ Hvalid' H _ _ Hin) as (s0 & Hs0 & Hacc).
      exists s0. split; [| done].
      rewrite Hs1 in Hs0. rewrite lookup_app_l in Hs0; [done |].
      rewrite Forall_forall in Hvalid. exact (Hvalid _ Hin).
Qed.

(** When every local snapshot is found in the store, the first loop adds
    nothing to new_snapshots. *)
Lemma merge_all_stored mi stored items : forall l,
  (forall n r, (n, r) ∈ items ->
     exists s0 e se, objects l !! r = Some s0 /\
       stored (snapshot_id s0) = Some e /\ objects l !! e = Some se /\
       (forall m, mi !! n = Some m -> is_Some (stored (info_snapshot_id m)))) ->
  exists l', merge_all mi stored l items = Ok l' /\
             new_snapshots l' = new_snapshots l.
Proof.
  induction items as [|[n r] items IH]; simpl; intros l Hall; [eauto |].
  destruct (Hall n r) as (s0 & e & se & Hs0 & He & Hse & Hm); [set_solver |].
  assert (Hstep : exists l1, merge_one mi stored l (n, r) = Ok l1 /\
            new_snapshots l1 = new_snapshots l /\
            exists s, objects l1 = objects l ++ [s]).
  { unfold merge_one, deref. rewrite Hs0. simpl. rewrite He, Hse. simpl.
    destruct (mi !! n) as [m|] eqn:Hmi.
    - destruct (Hm m eq_refl) as [old ->]. simpl. eauto.
    - eauto. }
  destruct Hstep as (l1 & -> & Hnew & s & Hobj). simpl.
  destruct (IH l1) as (l' & -> & Hnew').
  - intros n' r' Hin.
    destruct (Hall n' r') as (s0' & e' & se' & ? & ? & ? & ?); [set_solver |].
    exists s0', e', se'. rewrite Hobj.
    repeat split; [by apply lookup_app_l_Some | done | by apply lookup_app_l_Some | done].
  - exists l'. split; [done | congruence].
Qed.

Lemma create_inv fresh_version environment snapshots rd h d h1 :
  create fresh_version environment snapshots rd h = Ok (d, h1) ->
  exists l,
    merged_state (resolve_environment environment rd).1 snapshots rd h = Ok l /\
    reuse_all fresh_version (snapshot_remote_versions l) (objects l)
      (new_snapshots l) = Ok h1 /\
    ContextDiff.new_snapshots d = new_snapshots l.
Proof.
  unfold create. destruct (resolve_environment environment rd) as [env ename].
  intros H. inv_result. simpl. eauto.
Qed.

Lemma scenario_reader_valid ids id e :
  get_snapshots scenario.reader ids id = Some e -> e < length scenario.objects0.
Proof.
  simpl. case_bool_decide; [| discriminate]. unfold scenario.store. simpl.
  repeat case_bool_decide; intros [= <-]; lia.
Qed.

End context_diff_facts.

Module context_diff_invariants.
Import snapshot context_diff context_diff_facts.

(** C2.  Whatever the environment, the local snapshots and the state
    reader, a diff returned by [create] has disjoint [added] and
    [removed] sets, neither of which meets the names of
    [modified_snapshots], and the merged [snapshots] dictionary has
    exactly the names of the local snapshots. *)
Theorem create_partitions_names fresh_version environment snapshots rd h d h' :
  create fresh_version environment snapshots rd h = Ok (d, h') ->
  ContextDiff.added d ## ContextDiff.removed d /\
  ContextDiff.added d ## dom (ContextDiff.modified_snapshots d) /\
  ContextDiff.removed d ## dom (ContextDiff.modified_snapshots d) /\
  dom (ContextDiff.snapshots d) = keys snapshots.
Proof.
  unfold create. destruct (resolve_environment environment rd) as [env ename].
  intros H. inv_result. simpl.
  apply merged_state_domains in Ha as (Hm & Hsub & Hdisj).
  repeat split; [set_solver | set_solver | set_solver | done].
Qed.

Lemma create_partitions_names_witness :
  exists d h',
    scenario.run = Ok (d, h') /\
    (ContextDiff.added d ## ContextDiff.removed d /\
     ContextDiff.added d ## dom (ContextDiff.modified_snapshots d) /\
     ContextDiff.removed d ## dom (ContextDiff.modified_snapshots d) /\
     dom (ContextDiff.snapshots d) = keys scenario.local_snapshots).
Proof.
  destruct scenario.run as [[d h']|e] eqn:E; [| vm_compute in E; discriminate E].
  exists d, h'. split; [reflexivity |].
  exact (create_partitions_names _ _ _ _ _ _ _ E).
Defined.

(** C10.  [create] leaves the caller's snapshot objects alone: every
    reference it puts into new_snapshots names an object allocated by
    a copy during the call, and every object that existed before the call
    (in particular each snapshot of the snapshots argument) has the same
    value afterwards; previous_versions and version are assigned on the
    copies only. *)
Theorem create_does_not_mutate_arguments
    fresh_version environment snapshots rd h d h' :
  create fresh_version environment snapshots rd h = Ok (d, h') ->
  Forall (fun c => length h <= c < length h') (ContextDiff.new_snapshots d) /\
  (forall r s, h !! r = Some s -> h' !! r = Some s) /\
  (forall n r, (n, r) ∈ snapshots -> h' !! r = h !! r).
Proof.
  intros H.
  pose proof (create_extends _ _ _ _ _ _ _ H) as ([ext ->] & Hnew).
  split; [done |]. split.
  - intros r s Hr. by apply lookup_app_l_Some.
  - intros n r Hin.
    assert (Hvalid : is_Some (h !! r)).
    { clear Hnew. revert H. unfold create.
      destruct (resolve_environment environment rd) as [env ename].
      intros H. inv_result. unfold merged_state in Ha. inv_result.
      match goal with
      | Hids : snapshot_ids _ _ = Ok _ |- _ =>
          exact (snapshot_ids_valid _ _ _ Hids _ _ Hin)
      end. }
    destruct Hvalid as [s Hs]. rewrite Hs. by apply lookup_app_l_Some.
Qed.

Lemma create_does_not_mutate_arguments_witness :
  exists d h',
    scenario.run = Ok (d, h') /\
    Forall (fun c => length scenario.objects0 <= c < length h')
           (ContextDiff.new_snapshots d) /\
    (forall r s, scenario.objects0 !! r = Some s -> h' !! r = Some s) /\
    (forall n r, (n, r) ∈ scenario.local_snapshots ->
                 h' !! r = scenario.objects0 !! r).
Proof.
  destruct scenario.run as [[d h']|e] eqn:E; [| vm_compute in E; discriminate E].
  exists d, h'. split; [reflexivity |].
  exact (create_does_not_mutate_arguments _ _ _ _ _ _ _ E).
Defined.

(** C1.  Indirect-change version reuse.  Take a snapshot [s] of
    new_snapshots in a diff returned by [create] that has a previous
    version whose data hash equals its own and whose name has a record in
    the remote indirect versions collected by the first loop.  That record
    has a last entry, the remote head, and: if the remote head is among
    the versions of [s.previous_versions] then [s.version] is the local
    head [s.previous_version.version]; otherwise, if the local head is
    among the remote versions then [s.version] is the remote head;
    otherwise [s.version] is a fresh version. *)
Theorem create_reuses_indirect_versions
    fresh_version environment snapshots rd h d h' l c s previous
    remote_versions ts :
  create fresh_version environment snapshots rd h = Ok (d, h') ->
  merged_state (resolve_environment environment rd).1 snapshots rd h = Ok l ->
  c ∈ ContextDiff.new_snapshots d ->
  h' !! c = Some s ->
  previous_version s = Some previous ->
  data_hash_matches s previous = true ->
  snapshot_remote_versions l !! name s = Some (remote_versions, ts) ->
  exists remote_last,
    last remote_versions = Some remote_last /\
    let remote_head := dv_version remote_last in
    let local_head := dv_version previous in
    (remote_head ∈ dv_version <$> previous_versions s ->
       version s = local_head) /\
    (remote_head ∉ dv_version <$> previous_versions s ->
     local_head ∈ dv_version <$> remote_versions ->
       version s = remote_head) /\
    (remote_head ∉ dv_version <$> previous_versions s ->
     local_head ∉ dv_version <$> remote_versions ->
       version s = fresh_version (name s) (fingerprint s)).
Proof.
  unfold create. destruct (resolve_environment environment rd) as [env ename].
  simpl. intros H Hl Hc Hs Hprev Hmatch Hremote.
  rewrite Hl in H. simpl in H. inv_result. simpl in Hc.
  pose proof (merged_state_new _ _ _ _ _ Hl) as (_ & _ & Hnd).
  destruct (reuse_all_spec _ _ _ _ _ Hnd Ha) as (_ & _ & Hin).
  destruct (Hin c Hc) as (s0 & s' & Hs0 & Hreuse & Hs').
  rewrite Hs in Hs'. injection Hs' as <-.
  destruct (reuse_version_fields _ _ _ _ Hreuse) as [v Hv].
  assert (Hname : name s = name s0) by (by rewrite Hv).
  assert (Hfp : fingerprint s = fingerprint s0) by (by rewrite Hv).
  assert (Hpvs : previous_versions s = previous_versions s0) by (by rewrite Hv).
  assert (Hpv : previous_version s0 = Some previous)
    by (unfold previous_version in *; by rewrite <- Hpvs).
  assert (Hdm : data_hash_matches s0 previous = true)
    by (unfold data_hash_matches in *; by rewrite <- Hfp).
  unfold reuse_version in Hreuse.
  rewrite <- Hname, Hremote, Hpv, Hdm in Hreuse.
  destruct (last remote_versions) as [remote_last|]; [| discriminate Hreuse].
  simpl in Hreuse. exists remote_last. split; [done |].
  rewrite Hpvs, Hname, Hfp.
  repeat case_bool_decide; inv_result; simpl; repeat split; intros; done.
Qed.

Lemma create_reuses_indirect_versions_witness :
  let previous := mkDataVersion scenario.fB1 "vB0" in
  let remote_versions :=
    [mkDataVersion scenario.fB1 "vB0"; mkDataVersion scenario.fB2 "vB2"] in
  exists d h' l s,
    scenario.run = Ok (d, h') /\
    merged_state (Some scenario.prod) scenario.local_snapshots scenario.reader
      scenario.objects0 = Ok l /\
    6 ∈ ContextDiff.new_snapshots d /\
    h' !! 6 = Some s /\
    previous_version s = Some previous /\
    data_hash_matches s previous = true /\
    snapshot_remote_versions l !! name s = Some (remote_versions, 10%Z) /\
    exists remote_last,
      last remote_versions = Some remote_last /\
      (dv_version remote_last ∈ dv_version <$> previous_versions s ->
         version s = dv_version previous) /\
      (dv_version remote_last ∉ dv_version <$> previous_versions s ->
       dv_version previous ∈ dv_version <$> remote_versions ->
         version s = dv_version remote_last) /\
      (dv_version remote_last ∉ dv_version <$> previous_versions s ->
       dv_version previous ∉ dv_version <$> remote_versions ->
         version s = scenario.fresh (name s) (fingerprint s)).
Proof.
  intros previous remote_versions.
  destruct scenario.run as [[d h']|e] eqn:E; [| vm_compute in E; discriminate E].
  destruct (merged_state (Some scenario.prod) scenario.local_snapshots
              scenario.reader scenario.objects0) as [l|e] eqn:El;
    [| vm_compute in El; discriminate El].
  pose proof E as E'. vm_compute in E'. injection E' as Hd Hh.
  pose proof El as El'. vm_compute in El'. injection El' as Hl.
  assert (Hc : 6 ∈ ContextDiff.new_snapshots d)
    by (rewrite <- Hd; apply list_elem_of_singleton; reflexivity).
  destruct (h' !! 6) as [s|] eqn:Hs; [| rewrite <- Hh in Hs; discriminate Hs].
  pose proof Hs as Hs'. rewrite <- Hh in Hs'. injection Hs' as Hs'.
  assert (Hprev : previous_version s = Some previous) by (by rewrite <- Hs').
  assert (Hmatch : data_hash_matches s previous = true) by (by rewrite <- Hs').
  assert (Hrem : snapshot_remote_versions l !! name s = Some (remote_versions, 10%Z))
    by (rewrite <- Hs', <- Hl; reflexivity).
  exists d, h', l, s. repeat (split; [done |]).
  exact (create_reuses_indirect_versions scenario.fresh (inl "prod")
           scenario.local_snapshots scenario.reader scenario.objects0
           d h' l 6 s previous remote_versions 10%Z E El Hc Hs Hprev Hmatch Hrem).
Defined.

(** C3.  [create] is idempotent.  With a state reader whose stored
    snapshots are objects of the heap, a second call with the same
    arguments returns a diff equal in value to the first one; and once the
    new snapshots of the first call have been persisted, a repeated call
    returns a diff whose new_snapshots is empty, so it holds no entry
    beyond those already persisted. *)
Theorem create_idempotent fresh_version environment snapshots rd h d1 h1 :
  (forall ids id e, get_snapshots rd ids id = Some e -> e < length h) ->
  create fresh_version environment snapshots rd h = Ok (d1, h1) ->
  (exists d2 h2,
     create fresh_version environment snapshots rd h1 = Ok (d2, h2) /\
     value_of h2 d2 = value_of h1 d1) /\
  (forall rd' g',
     persisted snapshots rd rd' h1 g' (ContextDiff.new_snapshots d1) ->
     exists d3 h3,
       create fresh_version environment snapshots rd' g' = Ok (d3, h3) /\
       ContextDiff.new_snapshots d3 = []).
Proof.
  intros Hrd H. split.
  - pose proof (create_extends _ _ _ _ _ _ _ H) as ([ext ->] & _).
    destruct (create_shift _ _ _ _ _ ext _ _ Hrd H) as (h2 & H2 & Hins).
    eexists _, h2. split; [exact H2 |]. by apply value_of_shift.
  - intros rd' g' (Henv & Hold & Hnew & Hlocal).
    pose proof (create_extends _ _ _ _ _ _ _ H) as ([ext Hext] & _).
    apply create_inv in H as (l & Hl & Hreuse & Hdnew).
    rewrite Hdnew in Hnew. unfold create.
    assert (Hres : resolve_environment environment rd' = resolve_environment environment rd).
    { destruct environment as [n | env]; simpl; [by rewrite Henv | done]. }
    rewrite Hres. destruct (resolve_environment environment rd) as [env ename].
    simpl in Hl.
    pose proof (merged_state_valid _ _ _ _ _ Hl) as Hvalid.
    pose proof (merged_state_new _ _ _ _ _ Hl) as (_ & _ & Hnd).
    destruct (reuse_all_spec _ _ _ _ _ Hnd Hreuse) as (_ & _ & Hcells).
    assert (Hagree : forall n r, (n, r) ∈ snapshots -> g' !! r = h !! r).
    { intros n r Hin. rewrite (Hlocal n r Hin), Hext.
      apply lookup_app_l. rewrite Forall_forall in Hvalid. exact (Hvalid _ Hin). }
    unfold merged_state in *.
    rewrite (modified_info_of_agree h) by done.
    rewrite (snapshot_ids_agree h) by done.
    apply bind_Ok in Hl as (mods & Hmods & Hl).
    apply bind_Ok in Hl as (ids & Hids & Hl).
    rewrite Hmods, Hids. simpl.
    set (all_ids := (info_snapshot_id <$> mods.*2) ++ ids) in *.
    pose proof (merge_all_accounts _ _ _ (mkLocals h ∅ ∅ [] ∅) _ Hvalid Hl) as Hacc.
    edestruct (merge_all_stored (list_to_map (reverse mods))
                 (get_snapshots rd' all_ids) snapshots (mkLocals g' ∅ ∅ [] ∅))
      as (l' & -> & Hnew').
    + intros n r Hin. simpl.
      destruct (Hacc n r Hin) as (s0 & Hs0 & Hfound & Hmod). simpl in Hs0.
      assert (Hid : snapshot_id s0 ∈ all_ids).
      { apply elem_of_app. right. eapply snapshot_ids_elem; eauto. }
      assert (Hst : exists e', get_snapshots rd' all_ids (snapshot_id s0) = Some e' /\
                               is_Some (g' !! e')).
      { destruct Hfound as [[e He] | (c & s & Hc & Hs & Hsid)]; [by eapply Hold |].
        destruct (Hcells c Hc) as (sa & sb & Hsa & Hrv & Hsb).
        rewrite Hs in Hsa. injection Hsa as <-.
        destruct (reuse_version_fields _ _ _ _ Hrv) as [v Hv].
        rewrite <- Hsid.
        replace (snapshot_id s) with (snapshot_id sb) by (by rewrite Hv).
        eapply Hnew; [exact Hc | exact Hsb |].
        rewrite Hv. unfold snapshot_id. simpl. fold (snapshot_id s).
        by rewrite Hsid. }
      destruct Hst as (e' & He' & [se Hse]).
      exists s0, e', se. split; [by rewrite (Hagree n r Hin) |].
      split; [done |]. split; [done |].
      intros m Hm. destruct (Hmod m Hm) as [old Hold'].
      destruct (Hold _ _ _ Hold') as (old' & -> & _). eauto.
    + simpl in *. rewrite Hnew'. simpl. eauto.
Qed.

Lemma create_idempotent_witness :
  exists d1 h1,
    scenario.run = Ok (d1, h1) /\
    (exists d2 h2,
       create scenario.fresh (inl "prod") scenario.local_snapshots scenario.reader h1
         = Ok (d2, h2) /\
       value_of h2 d2 = value_of h1 d1) /\
    (exists d3 h3,
       create scenario.fresh (inl "prod") scenario.local_snapshots scenario.reader_after h1
         = Ok (d3, h3) /\
       ContextDiff.new_snapshots d3 = []).
Proof.
  destruct scenario.run as [[d1 h1]|e] eqn:E; [| vm_compute in E; discriminate E].
  exists d1, h1. split; [reflexivity |].
  destruct (create_idempotent scenario.fresh (inl "prod") scenario.local_snapshots
              scenario.reader scenario.objects0 d1 h1 scenario_reader_valid E)
    as [Hsame Hpersisted].
  split; [exact Hsame |].
  apply Hpersisted.
  vm_compute in E. injection E as <- <-.
  split; [done |]. split; [| split].
  - intros ids id e. simpl. case_bool_decide; [| discriminate].
    unfold scenario.store. simpl.
    repeat case_bool_decide; intros [= <-]; eexists; (split; [reflexivity | eauto]).
  - intros c s ids Hc. simpl in Hc. apply list_elem_of_singleton in Hc as ->.
    intros [= <-] Hin. exists 6. split; [| eauto].
    simpl. rewrite bool_decide_eq_true_2 by exact Hin. reflexivity.
  - done.
Defined.

End context_diff_invariants.
Module model_facts.
Import exp macros model.

Lemma foldl_min_le (l : list Z) : forall x, (foldl Z.min x l <= x)%Z.
Proof.
  induction l as [|y l IH]; simpl; intros x; [lia |].
  specialize (IH (Z.min x y)). lia.
Qed.

Lemma foldl_min_lower (l : list Z) : forall x g, g ∈ l -> (foldl Z.min x l <= g)%Z.
Proof.
  induction l as [|y l IH]; simpl; intros x g Hg.
  - by apply elem_of_nil in Hg.
  - apply elem_of_cons in Hg as [-> | Hg].
    + pose proof (foldl_min_le l (Z.min x y)). lia.
    + by apply IH.
Qed.

Lemma foldl_min_elem (l : list Z) : forall x, foldl Z.min x l = x \/ foldl Z.min x l ∈ l.
Proof.
  induction l as [|y l IH]; simpl; intros x; [by left |].
  destruct (IH (Z.min x y)) as [-> | Hin].
  - destruct (Z.min_spec x y) as [[_ ->] | [_ ->]]; [by left | right; set_solver].
  - right. set_solver.
Qed.

(** [min(...)] returns the least element of a non-empty sequence. *)
Lemma minimum_spec (l : list Z) (x : Z) :
  minimum l = Ok x -> x ∈ l /\ forall g, g ∈ l -> (x <= g)%Z.
Proof.
  destruct l as [|y l]; simpl; intros H; inv_result. split.
  - destruct (foldl_min_elem l y) as [-> | Hin]; set_solver.
  - intros g Hg. apply elem_of_cons in Hg as [-> | Hg].
    + apply foldl_min_le.
    + by apply foldl_min_lower.
Qed.
End model_facts.

Module model_claims.
Import exp macros model model_facts.

(** C9, as the code has it.  The interval unit of a model is derived
    from the least gap between the 10 consecutive next fire times sampled
    from its cron schedule: DAY when that gap is at least 86400 seconds,
    HOUR when it is at least 3600, MINUTE otherwise; and normalized_cron
    is ["* * * * *"] for MINUTE, ["0 * * * *"] for HOUR and ["0 0 * * *"]
    for DAY. *)
Theorem interval_unit_normalized_cron host m unit :
  interval_unit host m 10 = Ok unit ->
  (exists min_interval,
      min_interval ∈ gaps (croniter_samples host (cron m) 10) /\
      (forall g, g ∈ gaps (croniter_samples host (cron m) 10) -> (min_interval <= g)%Z) /\
      unit = (if (min_interval >=? 86400)%Z then DAY
              else if (min_interval >=? 3600)%Z then HOUR else MINUTE)) /\
  normalized_cron host m =
    Ok (match unit with
        | MINUTE => "* * * * *"
        | HOUR => "0 * * * *"
        | DAY => "0 0 * * *"
        end).
Proof.
  intros H. split.
  - unfold interval_unit in H. inv_result.
    apply minimum_spec in Ha as [Hin Hle].
    exists a. split; [done |]. split; [done |].
    destruct (a >=? 86400)%Z; [by inv_result |].
    destruct (a >=? 3600)%Z; by inv_result.
  - unfold normalized_cron. rewrite H. simpl. by destruct unit.
Qed.

Lemma interval_unit_normalized_cron_witness :
  interval_unit example.host example.minutely 10 = Ok MINUTE /\
  (exists min_interval,
      min_interval ∈ gaps (croniter_samples example.host (cron example.minutely) 10) /\
      (forall g, g ∈ gaps (croniter_samples example.host (cron example.minutely) 10) ->
                 (min_interval <= g)%Z) /\
      MINUTE = (if (min_interval >=? 86400)%Z then DAY
                else if (min_interval >=? 3600)%Z then HOUR else MINUTE)) /\
  normalized_cron example.host example.minutely = Ok "* * * * *".
Proof.
  assert (H : interval_unit example.host example.minutely 10 = Ok MINUTE) by reflexivity.
  split; [exact H |].
  exact (interval_unit_normalized_cron example.host example.minutely MINUTE H).
Defined.

(** C9 as stated fails: for a schedule that fires every minute the unit
    is MINUTE and normalized_cron is ["* * * * *"], which is not the
    string the claim gives for MINUTE. *)
Lemma normalized_cron_minute_counterexample :
  interval_unit example.host example.minutely 10 = Ok MINUTE /\
  normalized_cron example.host example.minutely = Ok "* * * * *" /\
  normalized_cron example.host example.minutely <> Ok "*/* */* * * *".
Proof. repeat split. discriminate. Qed.
End model_claims.
Module macro_facts.
Import exp macros.

Arguments contains : simpl never.

Section evaluator_facts.
Variable host : Host.
Variable macros : gmap string MacroFunction.

Lemma send_with_unknown evaluator fname args :
  macros !! normalize_macro_name fname = None ->
  send_with macros evaluator fname args
    = Raise (SQLMeshError ("Macro '" +:+ fname +:+ "' does not exist.")).
Proof using Type. intros H. unfold send_with. by rewrite H. Qed.

(** Running the code of a call to an unregistered macro never returns. *)
Lemma run_unknown depth locals cls_args fargs :
  get cls_args "this" = Exp (Node Anonymous fargs) ->
  macros !! normalize_macro_name (name (Node Anonymous fargs)) = None ->
  exists e, run host macros depth locals (Node MacroFunc cls_args) = Raise e.
Proof using Type.
  intros Hthis Hnone. destruct depth as [|depth]; [simpl; eauto |].
  cbn [run class_of this arg args_of].
  destruct (generate host (Node MacroFunc cls_args)); [| eauto].
  change (this (Node MacroFunc cls_args)) with (get cls_args "this").
  rewrite Hthis.
  destruct (python_args host locals (expressions (Node Anonymous fargs))) as [args|e];
    simpl; [| eauto].
  rewrite send_with_unknown by done. eauto.
Qed.
End evaluator_facts.
End macro_facts.

Module macro_claims.
Import exp macros macro_facts.

(** C4, as the code has it.  Evaluating a call [@X(...)] of a macro whose
    name is not in the evaluator's macro table fails.  When the call
    contains a column or a table, [send] raises SQLMeshError with the
    message "Macro 'X' does not exist." (the name as written, without the
    @ prefix); otherwise the call is run as generated code and the failure
    is reported as a MacroEvalError whose message is the "Error trying to
    eval macro." text with the generated code and the original SQL. *)
Theorem evaluate_unknown_macro host macros depth locals node func :
  class_of node = MacroFunc ->
  this node = Exp func ->
  class_of func = Anonymous ->
  macros !! normalize_macro_name (name func) = None ->
  evaluate host macros depth locals node =
    Raise (if contains column_or_table node
           then SQLMeshError ("Macro '" +:+ name func +:+ "' does not exist.")
           else MacroEvalError (eval_error_message host node)).
Proof.
  destruct node as [cls cls_args], func as [fcls fargs]. simpl.
  intros -> Hthis -> Hnone. unfold evaluate. simpl.
  destruct (contains column_or_table (Node MacroFunc cls_args)) eqn:Hfind; simpl.
  - unfold this, arg in *. simpl in *. rewrite Hthis. unfold send.
    by rewrite send_with_unknown.
  - unfold this, arg in Hthis. simpl in Hthis.
    destruct (run_unknown host macros depth locals cls_args fargs Hthis Hnone) as [e He].
    by rewrite He.
Qed.

Lemma evaluate_unknown_macro_witness :
  evaluate example.macro_host example.registry 1 ∅ example.unknown_call
    = Raise (SQLMeshError "Macro 'foo' does not exist.") /\
  evaluate example.macro_host example.registry 1 ∅ example.unknown_call_literal
    = Raise (MacroEvalError
               (eval_error_message example.macro_host example.unknown_call_literal)).
Proof.
  split.
  - apply (evaluate_unknown_macro example.macro_host example.registry 1 ∅
             example.unknown_call
             (Node Anonymous [("this", Str "foo");
                              ("expressions", Exps [example.column_ "x"])]));
      reflexivity.
  - apply (evaluate_unknown_macro example.macro_host example.registry 1 ∅
             example.unknown_call_literal
             (Node Anonymous [("this", Str "foo");
                              ("expressions", Exps [literal_number "1"])]));
      reflexivity.
Defined.

(** C4 as stated fails: the call [@foo(x)] of an unregistered macro
    raises SQLMeshError "Macro 'foo' does not exist.", which is not a
    MacroEvalError and does not carry the @ prefix. *)
Lemma evaluate_unknown_macro_counterexample :
  evaluate example.macro_host example.registry 1 ∅ example.unknown_call
    = Raise (SQLMeshError "Macro 'foo' does not exist.") /\
  evaluate example.macro_host example.registry 1 ∅ example.unknown_call
    <> Raise (MacroEvalError "Macro '@foo' does not exist") /\
  evaluate example.macro_host example.registry 1 ∅ example.unknown_call
    <> Raise (MacroEvalError "Macro '@FOO' does not exist").
Proof. repeat split; vm_compute; discriminate. Qed.
End macro_claims.
Module macro_clause_claims.
Import exp macros macro_facts.

Lemma clause_macro_call n f evaluator condition expression c :
  (n, f) ∈ clause_macros ->
  ev_eval_expression evaluator condition = Ok c ->
  f evaluator [condition; expression] = Ok (if truthy c then expression else VNone).
Proof.
  intros Hin Hc. unfold clause_macros in Hin.
  repeat (apply elem_of_cons in Hin as [[= -> ->] | Hin]);
    try (simpl; by rewrite Hc).
  by apply elem_of_nil in Hin.
Qed.

Lemma send_clause_macro host macros depth locals fname f condition expression c :
  (normalize_macro_name fname, f) ∈ clause_macros ->
  macros !! normalize_macro_name fname = Some f ->
  eval_expression host macros depth locals condition = Ok c ->
  send host macros depth locals fname [condition; expression]
    = Ok (if truthy c then expression else VNone).
Proof.
  intros Hin Hf Hc. unfold send, send_with. rewrite Hf.
  by apply (clause_macro_call _ _ _ _ _ _ Hin).
Qed.

(** Evaluating the call of a clause macro that holds a column or a table:
    the call is replaced by the clause, or deleted. *)
Lemma evaluate_clause_macro host macros depth locals fname f condition clause c :
  (normalize_macro_name fname, f) ∈ clause_macros ->
  macros !! normalize_macro_name fname = Some f ->
  contains column_or_table (macro_call fname [condition; clause]) = true ->
  eval_expression host macros depth locals (VExp condition) = Ok c ->
  evaluate host macros depth locals (macro_call fname [condition; clause])
    = Ok (locals, if truthy c then One clause else Nothing).
Proof.
  intros Hin Hf Hfind Hc. unfold evaluate. rewrite Hfind.
  change (class_of (macro_call fname [condition; clause])) with MacroFunc.
  rewrite !bool_decide_eq_false_2 by done.
  change (this (macro_call fname [condition; clause])) with
    (Exp (Node Anonymous [("this", Str fname);
                          ("expressions", Exps [condition; clause])])).
  cbn [negb orb].
  change (name (Node Anonymous _)) with fname.
  change (expressions (Node Anonymous _)) with [condition; clause].
  change (VExp <$> [condition; clause]) with [VExp condition; VExp clause].
  rewrite (send_clause_macro _ _ _ _ _ _ _ _ _ Hin Hf Hc).
  by destruct (truthy c).
Qed.

(** [SELECT x FROM t @WHERE(b) x > 1] through [transform]. *)
Lemma transform_where_example host macros depth locals :
  macros !! "@WHERE" = Some where_ ->
  (forall b, is_Some (generate host (example.boolean b))) ->
  (forall b, python host locals (example.boolean b) = Ok (VBool b)) ->
  transform host macros (S depth) locals (example.select_macro_where true)
    = Ok (locals, One (example.select_x_from_t
                         [("where", Exp example.where_x_gt_1)])) /\
  transform host macros (S depth) locals (example.select_macro_where false)
    = Ok (locals, One (example.select_x_from_t [("where", NoArg)])).
Proof.
  intros Hwhere Hgen Hpy.
  assert (Hcond : forall b,
             eval_expression host macros (S depth) locals (VExp (example.boolean b))
             = Ok (VBool b)).
  { intros b. unfold eval_expression. cbn [run].
    destruct (Hgen b) as [code ->]. cbn [class_of example.boolean].
    by rewrite Hpy. }
  assert (Hin : (normalize_macro_name "WHERE", where_) ∈ clause_macros)
    by (apply list_elem_of_In; simpl; tauto).
  split.
  - unfold transform. simpl.
    match goal with
    | |- context [evaluate _ _ _ _ ?n] =>
        change n with (macro_call "WHERE" [example.boolean true; example.where_x_gt_1])
    end.
    rewrite (evaluate_clause_macro host macros (S depth) locals "WHERE" where_
               (example.boolean true) example.where_x_gt_1 (VBool true)
               Hin Hwhere eq_refl (Hcond true)).
    reflexivity.
  - unfold transform. simpl.
    match goal with
    | |- context [evaluate _ _ _ _ ?n] =>
        change n with (macro_call "WHERE" [example.boolean false; example.where_x_gt_1])
    end.
    rewrite (evaluate_clause_macro host macros (S depth) locals "WHERE" where_
               (example.boolean false) example.where_x_gt_1 (VBool false)
               Hin Hwhere eq_refl (Hcond false)).
    reflexivity.
Qed.

(** The same query as the query of a model that is not incremental,
    through [render_query]. *)
Lemma render_where_example (host : model.Host) depth m start end_ latest kwargs b :
  model.registry host !! "@WHERE" = Some where_ ->
  (forall b, is_Some (generate (model.macro_host host) (example.boolean b))) ->
  (forall locals b,
      python (model.macro_host host) locals (example.boolean b) = Ok (VBool b)) ->
  model.query m = example.select_macro_where b ->
  model.expressions_ m = [] ->
  model._query_cache m = [] ->
  model.kind m <> model.INCREMENTAL ->
  model.render_query host (S (S depth)) m start end_ latest [] [] [] kwargs
    = Ok (model.simplify host
            (example.select_x_from_t
               [("where", if b then Exp example.where_x_gt_1 else NoArg)])).
Proof.
  intros Hwhere Hgen Hpy Hq Hexp Hcache Hkind.
  unfold model.render_query. cbn [model._render_query].
  destruct (model.make_inclusive host (model.or_epoch start) (model.or_epoch end_))
    as [sd ed].
  rewrite Hcache. cbn [model.cache_get].
  unfold model.macro_definitions. rewrite Hexp.
  cbn [filter list_filter model.evaluate_definitions]. simpl.
  set (locals := foldl _ _ _).
  destruct (transform_where_example (model.macro_host host) (model.registry host)
              depth locals Hwhere Hgen (Hpy locals)) as (Ht & Hf).
  rewrite Hq. destruct b.
  - rewrite Ht. simpl. rewrite bool_decide_eq_false_2 by done. reflexivity.
  - rewrite Hf. simpl. rewrite bool_decide_eq_false_2 by done. reflexivity.
Qed.



End macro_clause_claims.
Module elimination.
Import exp macros macro_facts.

(** *** [contains] and the children of a node *)

Lemma contains_node p cls args :
  contains p (Node cls args) = false <->
  p cls = false /\
  Forall (fun kv : string * Arg Expression =>
            arg_all (fun e => contains p e = false) kv.2) args.
Proof.
  change (contains p (Node cls args)) with
    (p cls || existsb (fun kv : string * Arg Expression =>
                 match kv.2 with
                 | Exp e' => contains p e'
                 | Exps es => existsb (contains p) es
                 | _ => false
                 end) args).
  rewrite orb_false_iff. apply and_iff_compat_l.
  induction args as [|[k a] args IH]; simpl.
  - split; [constructor | done].
  - rewrite orb_false_iff, IH, Forall_cons. apply and_iff_compat_r. simpl.
    destruct a as [e|es| | |]; simpl; try tauto.
    induction es as [|x es IHes]; simpl.
    + split; [constructor | done].
    + rewrite orb_false_iff, IHes, Forall_cons. tauto.
Qed.

Lemma contains_get_exp p cls args key e :
  contains p (Node cls args) = false -> get args key = Exp e -> contains p e = false.
Proof.
  intros H Hget. apply contains_node in H as [_ H].
  induction args as [|[k a] args IH]; simpl in *; [discriminate |].
  apply Forall_cons in H as [Ha H]. case_bool_decide; [| by apply IH].
  subst a. exact Ha.
Qed.

Lemma contains_get_exps p cls args key es :
  contains p (Node cls args) = false -> get args key = Exps es ->
  Forall (fun e => contains p e = false) es.
Proof.
  intros H Hget. apply contains_node in H as [_ H].
  induction args as [|[k a] args IH]; simpl in *; [discriminate |].
  apply Forall_cons in H as [Ha H]. case_bool_decide; [| by apply IH].
  subst a. exact Ha.
Qed.

Lemma transform_at_node fun_ key cls args :
  transform_at fun_ key (Node cls args) =
  r ← fun_ key (Node cls args);
  match r with
  | Some new_node => Ok new_node
  | None =>
      '(_, args') ← replace_children
        (fun (_ : unit) k child =>
           child' ← transform_at fun_ k child; Ok (tt, [child']))
        tt args;
      Ok (Node cls args')
  end.
Proof. reflexivity. Qed.

(** *** A specification of [replace_children] *)

Lemma replace_children_spec {S} (fun_ : S -> string -> Expression -> result (S * list Expression))
    (I : S -> Prop) (P Q : Expression -> Prop) :
  (forall s k e s' new, I s -> P e -> fun_ s k e = Ok (s', new) ->
                        I s' /\ Forall Q new) ->
  forall args s s' args',
    I s ->
    Forall (fun kv : string * Arg Expression => arg_all P kv.2) args ->
    replace_children fun_ s args = Ok (s', args') ->
    I s' /\ Forall (fun kv : string * Arg Expression => arg_all Q kv.2) args'.
Proof.
  intros Hfun.
  assert (Hlist : forall key es s s' new,
             I s -> Forall P es -> replace_list fun_ key s es = Ok (s', new) ->
             I s' /\ Forall Q new).
  { induction es as [|e es IH]; simpl; intros s s' new Hs Hes H.
    - inv_result. split; [done | constructor].
    - apply Forall_cons in Hes as [He Hes].
      destruct (fun_ s key e) as [[s1 new1]|] eqn:E1; simpl in H; [| discriminate].
      destruct (replace_list fun_ key s1 es) as [[s2 tl]|] eqn:E2; simpl in H;
        [| discriminate].
      injection H as <- <-.
      destruct (Hfun _ _ _ _ _ Hs He E1) as [Hs1 Hnew1].
      destruct (IH _ _ _ Hs1 Hes E2) as [Hs2 Htl].
      split; [done |]. by apply Forall_app. }
  induction args as [|[k a] args IH]; simpl; intros s s' args' Hs Hargs H.
  - inv_result. split; [done | constructor].
  - apply Forall_cons in Hargs as [Ha Hargs]. simpl in Ha.
    destruct (replace_arg fun_ s k a) as [[s1 a']|] eqn:E1; simpl in H; [| discriminate].
    destruct (replace_children fun_ s1 args) as [[s2 tl]|] eqn:E2; simpl in H;
      [| discriminate].
    injection H as <- <-.
    assert (Harg : I s1 /\ arg_all Q a').
    { destruct a as [e|es| | |]; simpl in E1.
      - destruct (fun_ s k e) as [[s0 new]|] eqn:E; simpl in E1; [| discriminate].
        injection E1 as <- <-.
        destruct (Hfun _ _ _ _ _ Hs Ha E) as [Hs0 Hnew].
        split; [done |]. destruct new as [|x new]; simpl; [done |].
        by apply Forall_cons in Hnew as [Hx _].
      - destruct (replace_list fun_ k s es) as [[s0 new]|] eqn:E; simpl in E1;
          [| discriminate].
        injection E1 as <- <-.
        destruct (Hlist _ _ _ _ _ Hs Ha E) as [Hs0 Hnew]. by split.
      - injection E1 as <- <-. by split.
      - injection E1 as <- <-. by split.
      - injection E1 as <- <-. by split. }
    destruct Harg as [Hs1 Ha'].
    destruct (IH _ _ _ Hs1 Hargs E2) as [Hs2 Htl].
    split; [done |]. by constructor.
Qed.

(** *** Values without macro nodes convert to trees without macro nodes *)

Lemma macro_free_leaf cls args :
  macro_class cls = false ->
  Forall (fun kv : string * Arg Expression => arg_all macro_free kv.2) args ->
  macro_free (Node cls args).
Proof. intros. by apply contains_node. Qed.

Lemma convert_free : forall v e,
  value_macro_free v -> convert v = Ok e -> macro_free e.
Proof.
  fix IH 1. intros v e Hv H. destruct v as [ | b | z | s | e0 | items | t c]; simpl in *.
  - inv_result. by apply macro_free_leaf.
  - inv_result. apply macro_free_leaf; [done |]. repeat constructor.
  - inv_result. apply macro_free_leaf; [done |]. repeat constructor.
  - inv_result. apply macro_free_leaf; [done |]. repeat constructor.
  - by inv_result.
  - apply bind_Ok in H as (es & Hes & H). injection H as <-.
    apply macro_free_leaf; [done |]. constructor; [| constructor]. simpl.
    revert es Hv Hes. induction items as [|x items IHitems]; intros es Hv Hes.
    + inv_result. constructor.
    + destruct Hv as [Hx Hrest].
      apply bind_Ok in Hes as (ex & Hex & Hes).
      apply bind_Ok in Hes as (tl & Htl & Hes). injection Hes as <-.
      constructor; [exact (IH x ex Hx Hex) | by apply IHitems].
  - destruct c as [c|]; by inv_result.
Qed.

Lemma value_list_free (items : list Value) :
  value_macro_free (VList items) <-> Forall value_macro_free items.
Proof.
  simpl. induction items as [|x items IH]; [split; [constructor | done] |].
  rewrite Forall_cons, <- IH. done.
Qed.

Lemma convert_items_free items : forall es,
  Forall value_macro_free items -> convert_items items = Ok es ->
  Forall macro_free es.
Proof.
  induction items as [|x items IH]; simpl; intros es Hitems H.
  - inv_result. constructor.
  - apply Forall_cons in Hitems as [Hx Hitems].
    assert (Hcons : forall ex tl, convert x = Ok ex -> convert_items items = Ok tl ->
                                  Forall macro_free (ex :: tl)).
    { intros ex tl Hex Htl. constructor; [by eapply convert_free | by apply IH]. }
    destruct x; try (by apply IH);
      apply bind_Ok in H as (ex & Hex & H);
      apply bind_Ok in H as (tl & Htl & H); injection H as <-; by apply Hcons.
Qed.

Lemma ready_node cls args :
  ready (Node cls args) <->
  cls <> MacroVar /\ cls <> MacroDef /\
  (cls = Lambda -> macro_free (Node cls args)) /\
  Forall (fun kv : string * Arg Expression => arg_all ready kv.2) args.
Proof.
  cbn [ready]. do 3 apply and_iff_compat_l.
  induction args as [|[k a] args IH]; [split; [constructor | done] |].
  rewrite Forall_cons, <- IH. apply and_iff_compat_r. simpl.
  destruct a as [c|cs| | |]; simpl; try done.
  induction cs as [|x cs IHcs]; [split; [constructor | done] |].
  rewrite Forall_cons, <- IHcs. done.
Qed.

Lemma arg_all_and (P Q : Expression -> Prop) (args : list (string * Arg Expression)) :
  Forall (fun kv : string * Arg Expression => arg_all P kv.2) args ->
  Forall (fun kv : string * Arg Expression => arg_all Q kv.2) args ->
  Forall (fun kv : string * Arg Expression => arg_all (fun e => P e /\ Q e) kv.2) args.
Proof.
  intros HP HQ. induction HP as [|[k a] args Ha HP IH]; [constructor |].
  apply Forall_cons in HQ as [Hb HQ]. constructor; [| by apply IH].
  simpl in *. destruct a as [c|cs| | |]; simpl in *; try done.
  clear -Ha Hb. induction Ha as [|x cs Hx Ha IH]; [constructor |].
  apply Forall_cons in Hb as [Hy Hb]. constructor; [done | by apply IH].
Qed.

Lemma macro_free_ready e : macro_free e -> ready e.
Proof.
  induction e as [cls args IH] using Expression_ind'. intros Hfree.
  pose proof Hfree as Hnode. apply contains_node in Hnode as [Hcls Hargs].
  apply ready_node. split; [by intros -> |]. split; [by intros -> |].
  split; [done |].
  pose proof (arg_all_and _ _ _ IH Hargs) as Hboth.
  eapply Forall_impl; [exact Hboth |]. intros [k a]. simpl.
  destruct a as [c|cs| | |]; simpl; try done.
  - intros [Hi Hf]. by apply Hi.
  - intros Hcs. eapply Forall_impl; [exact Hcs |]. simpl. intros x [Hi Hf]. by apply Hi.
Qed.

(** *** The evaluator hands back values without macro nodes *)

Section well_behaved.
Variable host : Host.
Variable macros : gmap string MacroFunction.
Variable locals0 : gmap string Value.
Hypothesis Hwb : well_behaved host macros locals0.

Lemma python_args_free locals args : forall vs,
  python_args host locals args = Ok vs -> Forall value_macro_free vs.
Proof using Hwb.
  induction args as [|a args IH]; simpl; intros vs H.
  - inv_result. constructor.
  - apply bind_Ok in H as (v & Hv & H).
    apply bind_Ok in H as (tl & Htl & H). injection H as <-.
    constructor; [by eapply (python_free _ _ _ Hwb) | by apply IH].
Qed.

Lemma send_with_free evaluator fname args v :
  Forall value_macro_free args ->
  (forall x y, ev_eval_expression evaluator x = Ok y -> value_macro_free y) ->
  send_with macros evaluator fname args = Ok v ->
  value_macro_free v.
Proof using Hwb.
  unfold send_with. intros Hargs Hev H.
  destruct (macros !! normalize_macro_name fname) as [f|] eqn:Hf; [| discriminate].
  by eapply (macros_free _ _ _ Hwb).
Qed.

Lemma run_free depth : forall locals e v,
  run host macros depth locals e = Ok v -> value_macro_free v.
Proof using Hwb.
  induction depth as [|depth IH]; intros locals e v H; [discriminate |].
  cbn [run] in H.
  destruct (generate host e); [| discriminate].
  assert (Hpy : python host locals e = Ok v -> value_macro_free v)
    by apply (python_free _ _ _ Hwb).
  destruct (class_of e); try (by apply Hpy).
  destruct (this e) as [[fcls fargs]| | | |]; try (by apply Hpy).
  destruct fcls; try (by apply Hpy).
  apply bind_Ok in H as (args & Hargs & H).
  eapply send_with_free; [by eapply python_args_free | | exact H].
  simpl. intros x y Hxy. destruct x; try discriminate.
  destruct (run host macros depth locals e0) eqn:Hrun; [| discriminate].
  injection Hxy as <-. by eapply IH.
Qed.

Lemma eval_expression_free depth locals x y :
  eval_expression host macros depth locals x = Ok y -> value_macro_free y.
Proof using Hwb.
  unfold eval_expression. intros H. destruct x; try discriminate.
  destruct (run host macros depth locals e) eqn:Hrun; [| discriminate].
  injection H as <-. by eapply run_free.
Qed.

(** A macro call whose arguments hold no macro nodes is replaced by
    trees without macro nodes, and the bindings stay as they are. *)
Lemma evaluate_free depth locals cls args locals' r :
  cls <> MacroDef ->
  Forall (fun kv : string * Arg Expression => arg_all macro_free kv.2) args ->
  evaluate host macros depth locals (Node cls args) = Ok (locals', r) ->
  locals' = locals /\ Forall macro_free (ensure_collection r).
Proof using Hwb.
  intros Hcls Hargs. unfold evaluate. cbn [class_of].
  rewrite bool_decide_eq_false_2 by done. intros H.
  apply bind_Ok in H as (v & Hv & H).
  assert (Hfree : value_macro_free v).
  { destruct (bool_decide (cls = MacroSQL)
              || negb (contains column_or_table (Node cls args))).
    - by eapply eval_expression_free.
    - destruct (this (Node cls args)) as [func| | | |] eqn:Hthis; try discriminate.
      unfold send in Hv. eapply send_with_free; [| | exact Hv].
      + apply Forall_fmap. unfold expressions, arg.
        destruct (get (args_of func) "expressions") as [|es| | |] eqn:Hes;
          try constructor.
        assert (Hfunc : macro_free func).
        { unfold this, arg in Hthis. simpl in Hthis.
          clear -Hargs Hthis. induction args as [|[k a] args IH]; [discriminate |].
          apply Forall_cons in Hargs as [Ha Hargs]. simpl in Hthis.
          case_bool_decide; [by subst a | by apply IH]. }
        destruct func as [fcls fargs].
        exact (contains_get_exps _ _ _ _ _ Hfunc Hes).
      + simpl. intros x y. apply eval_expression_free. }
  destruct v; simpl in H.
  - inv_result. split; [done | constructor].
  - inv_result. split; [done |]. repeat constructor.
  - inv_result. split; [done |]. repeat constructor.
  - inv_result. split; [done |]. repeat constructor.
  - inv_result. split; [done |]. by repeat constructor.
  - apply bind_Ok in H as (es & Hes & H). injection H as <- <-.
    split; [done |]. simpl. eapply convert_items_free; [| exact Hes].
    by apply value_list_free.
  - apply bind_Ok in H as (e & He & H). injection H as <- <-.
    split; [done |]. simpl. constructor; [| constructor].
    by eapply (convert_free (VOther truthy0 converted)).
Qed.

(** The first pass leaves a plain query ready for the second. *)
Lemma substitute_ready q : forall key q1,
  plain_query q ->
  transform_at (substitute_var locals0) key q = Ok q1 ->
  ready q1.
Proof using Hwb.
  induction q as [cls args IH] using Expression_ind'. intros key q1 Hplain H.
  rewrite transform_at_node in H.
  apply bind_Ok in H as (r & Hr & H). unfold substitute_var in Hr. cbn [class_of] in Hr.
  case_bool_decide as Hvar.
  - apply bind_Ok in Hr as (v & Hv & Hr). apply of_option_Ok in Hv.
    apply bind_Ok in Hr as (e & He & Hr). injection Hr as <-. injection H as <-.
    apply macro_free_ready. eapply convert_free; [| exact He].
    by eapply (locals_free _ _ _ Hwb).
  - injection Hr as <-.
    destruct (replace_children _ tt args) as [[u args']|] eqn:Hrc; [| discriminate].
    simpl in H. injection H as <-.
    apply contains_node in Hplain as [Hcls Hargs].
    apply orb_false_iff in Hcls as [Hdef Hlam].
    apply bool_decide_eq_false in Hdef, Hlam.
    apply ready_node. do 3 (split; [done |]).
    eapply (replace_children_spec _ (fun _ => True)
              (fun e => (forall key q1, plain_query e ->
                           transform_at (substitute_var locals0) key e = Ok q1 ->
                           ready q1) /\ plain_query e)
              ready); [| done | | exact Hrc].
    + intros s k e s' new _ [IHe Hpe] Hcb.
      apply bind_Ok in Hcb as (e' & He' & Hcb). injection Hcb as <- <-.
      split; [done |]. constructor; [| constructor]. by eapply IHe.
    + by apply arg_all_and.
Qed.

(** The second pass turns a ready tree into trees without macro nodes. *)
Lemma evaluate_macros_free depth e : forall locals locals' r,
  ready e ->
  evaluate_macros host macros depth locals e = Ok (locals', r) ->
  locals' = locals /\ Forall macro_free (ensure_collection r).
Proof using Hwb.
  induction e as [cls args IH] using Expression_ind'. intros locals locals' r Hready H.
  cbn [evaluate_macros] in H.
  destruct (replace_children _ locals args) as [[locals1 args']|] eqn:Hrc;
    [| discriminate].
  simpl in H.
  apply ready_node in Hready as (Hvar & Hdef & Hlam & Hargs).
  assert (Hchildren : locals1 = locals /\
            Forall (fun kv : string * Arg Expression => arg_all macro_free kv.2) args').
  { eapply (replace_children_spec _ (fun l => l = locals)
              (fun e => (forall locals locals' r, ready e ->
                           evaluate_macros host macros depth locals e = Ok (locals', r) ->
                           locals' = locals /\ Forall macro_free (ensure_collection r))
                        /\ ready e)
              macro_free); [| done | | exact Hrc].
    - intros l k n l' new -> [IHn Hn] Hcb. case_bool_decide as Hcls.
      + injection Hcb as <- <-. split; [done |]. constructor; [| constructor].
        destruct n as [ncls nargs]. apply ready_node in Hn as (_ & _ & Hfree & _).
        by apply Hfree.
      + destruct (evaluate_macros host macros depth locals n) as [[l1 r1]|] eqn:Hev;
          [| discriminate].
        simpl in Hcb. injection Hcb as <- <-. by eapply IHn.
    - by apply arg_all_and. }
  destruct Hchildren as [-> Hfree].
  destruct (is_macro_func cls) eqn:Hmf.
  - by eapply evaluate_free.
  - injection H as <- <-. split; [done |]. constructor; [| constructor].
    apply macro_free_leaf; [| done]. unfold macro_class. rewrite Hmf. simpl.
    by apply bool_decide_eq_false.
Qed.
End well_behaved.

(** The last pass keeps trees free of macro nodes. *)
Lemma unalias_free e : forall key e',
  macro_free e -> transform_at unalias key e = Ok e' -> macro_free e'.
Proof.
  induction e as [cls args IH] using Expression_ind'. intros key e' Hfree H.
  rewrite transform_at_node in H.
  destruct (unalias key (Node cls args)) as [[t|]|] eqn:Hun; simpl in H; [| | discriminate].
  - injection H as <-. unfold unalias in Hun.
    destruct (bool_decide (class_of (Node cls args) = Column) && bool_decide (key = "alias"));
      [| discriminate].
    destruct (this (Node cls args)) as [t'| | | |] eqn:Hthis; try discriminate.
    injection Hun as ->. exact (contains_get_exp _ _ _ _ _ Hfree Hthis).
  - destruct (replace_children _ tt args) as [[u args']|] eqn:Hrc; [| discriminate].
    simpl in H. injection H as <-.
    apply contains_node in Hfree as [Hcls Hargs].
    apply macro_free_leaf; [done |].
    eapply (replace_children_spec _ (fun _ => True)
              (fun e => (forall key e', macro_free e ->
                           transform_at unalias key e = Ok e' -> macro_free e')
                        /\ macro_free e)
              macro_free); [| done | | exact Hrc].
    + intros s k e s' new _ [IHe Hfe] Hcb.
      apply bind_Ok in Hcb as (e'' & He'' & Hcb). injection Hcb as <- <-.
      split; [done |]. constructor; [| constructor]. by eapply IHe.
    + by apply arg_all_and.
Qed.

Lemma unalias_in_place_free e e' :
  macro_free e -> unalias_in_place e = Ok e' -> macro_free e'.
Proof.
  unfold unalias_in_place. intros Hfree H.
  destruct (unalias "" e) as [[t|]|]; simpl in H; [| | discriminate].
  - by injection H as <-.
  - by eapply unalias_free.
Qed.

Lemma unalias_all_free es : forall es',
  Forall macro_free es -> unalias_all es = Ok es' -> Forall macro_free es'.
Proof.
  induction es as [|e es IH]; simpl; intros es' Hfree H.
  - inv_result. constructor.
  - apply Forall_cons in Hfree as [He Hes].
    apply bind_Ok in H as (e1 & He1 & H).
    apply bind_Ok in H as (tl & Htl & H). injection H as <-.
    constructor; [by eapply unalias_in_place_free | by apply IH].
Qed.
End elimination.
Module macro_elimination_claims.
Import exp macros macro_facts elimination.

Lemma example_well_behaved :
  well_behaved example.macro_host example.registry ∅.
Proof.
  constructor.
  - intros l e v H. unfold example.macro_host, example.literal_python in H. simpl in H.
    destruct e as [cls args]. destruct cls; try discriminate H.
    all: repeat (match type of H with
                 | match ?x with _ => _ end = _ => destruct x; try discriminate H
                 end).
    all: by injection H as <-.
  - intros n f evaluator args v Hf Hargs Hev H.
    assert (Hin : (n, f) ∈ clause_macros).
    { apply (elem_of_list_to_map_2 (M := gmap string)) in Hf. exact Hf. }
    unfold clause_macros in Hin.
    repeat (apply elem_of_cons in Hin as [[= -> ->] | Hin]);
      try (by apply elem_of_nil in Hin).
    all: simpl in H; destruct args as [|c [|x [|y args]]]; try discriminate H.
    all: apply bind_Ok in H as (b & Hb & H); injection H as <-.
    all: apply Forall_cons in Hargs as [_ Hargs];
         apply Forall_cons in Hargs as [Hx _]; by destruct (truthy b).
  - intros k v H. by rewrite lookup_empty in H.
Qed.



End macro_elimination_claims.
Module time_filter_facts.
Import exp macros model.

Lemma get_set_eq args key value : get (set args key value) key = value.
Proof.
  induction args as [|[k a] args IH]; simpl.
  - by rewrite bool_decide_eq_true_2.
  - case_bool_decide as Hk; simpl.
    + by rewrite bool_decide_eq_true_2.
    + by rewrite bool_decide_eq_false_2.
Qed.

Lemma get_set_ne args key value key' :
  key' <> key -> get (set args key value) key' = get args key'.
Proof.
  intros Hne. induction args as [|[k a] args IH]; simpl.
  - by rewrite bool_decide_eq_false_2.
  - case_bool_decide as Hk; simpl.
    + subst k. by rewrite !bool_decide_eq_false_2.
    + by rewrite IH.
Qed.

Lemma text_kind_disjoint k :
  (k ∈ NUMERIC_TYPES -> k ∉ TEXT_TYPES) /\
  (k ∈ TEMPORAL_TYPES -> (k ∉ TEXT_TYPES) /\ (k ∉ NUMERIC_TYPES)).
Proof.
  unfold NUMERIC_TYPES, TEMPORAL_TYPES, TEXT_TYPES. split.
  - intros Hk. repeat (apply elem_of_cons in Hk as [-> | Hk]);
      try (by apply elem_of_nil in Hk); set_solver.
  - intros Hk. repeat (apply elem_of_cons in Hk as [-> | Hk]);
      try (by apply elem_of_nil in Hk); set_solver.
Qed.
End time_filter_facts.

Module time_filter_lemmas.
Import exp macros model time_filter time_filter_facts.

Section reading.
Variable host : Host.
Variable depth : nat.
Variable m : Model.

Lemma columns_types cols :
  columns host depth m = Ok cols <-> column_types host depth m cols.
Proof using Type.
  unfold columns, column_types. case_bool_decide as Hdecl; [| split; congruence].
  destruct (_render_query host depth m (query m) None None None [] [] [] None None [])
    as [rendered|e]; simpl.
  - match goal with
    | |- ?go (expressions rendered) = _ <-> _ => set (go_ := go)
    end.
    assert (Hgo : forall es cols,
              go_ es = Ok cols <->
              Forall2 (fun e (kv : string * Expression) =>
                         kv.1 = alias_or_name e /\
                         exists c, find (fun k => bool_decide (k = Cast)) e = Some c /\
                                   arg c "to" = Exp kv.2) es cols).
    { clear. induction es as [|e es IH]; intros cols; simpl.
      - split.
        + intros [= <-]. constructor.
        + intros H. by apply Forall2_nil_inv_l in H as ->.
      - split.
        + intros H. apply bind_Ok in H as (tl & Htl & H).
          destruct (find _ e) as [c|] eqn:Hfind; [| discriminate].
          destruct (arg c "to") as [to| | | |] eqn:Hto; try discriminate.
          injection H as <-. constructor; [| by apply IH].
          simpl. split; [done |]. eauto.
        + intros H. apply Forall2_cons_inv_l in H
            as ([n to] & tl & [Hn (c & Hfind & Hto)] & Htl & ->).
          simpl in *. subst n. apply IH in Htl. rewrite Htl. simpl.
          by rewrite Hfind, Hto. }
    rewrite Hgo. split; [eauto |]. intros (r & Heq & H). by injection Heq as <-.
  - split; [discriminate |]. intros (r & Heq & _). discriminate Heq.
Qed.

Lemma lookup_column_None cols n :
  lookup_column cols n = None <-> n ∉ cols.*1.
Proof using Type.
  induction cols as [|[k v] cols IH]; simpl.
  - split; [intros _; apply not_elem_of_nil | done].
  - rewrite not_elem_of_cons, <- IH.
    destruct (lookup_column cols n); [split; [discriminate | by intros [_ ?]] |].
    case_bool_decide as Hk.
    + split; [discriminate |]. intros [Hne _]. by destruct Hne.
    + split; [| done]. intros _. split; [congruence | done].
Qed.

Lemma lookup_column_bound cols n ty :
  lookup_column cols n = Some ty <-> bound_to cols n ty.
Proof using Type.
  unfold bound_to. induction cols as [|[k v] cols IH]; simpl.
  - split; [discriminate |]. intros (before & after & H & _).
    by destruct before.
  - split.
    + destruct (lookup_column cols n) as [later|] eqn:Hlater.
      * intros [= <-]. destruct (proj1 IH eq_refl) as (before & after & -> & Hn).
        by exists ((k, v) :: before), after.
      * case_bool_decide as Hk; [| discriminate]. intros [= <-]. subst k.
        exists [], cols. split; [done |]. by apply lookup_column_None.
    + intros (before & after & Heq & Hn). destruct before as [|x before].
      * simplify_eq/=.
        rewrite (proj2 (lookup_column_None after n) Hn).
        by rewrite bool_decide_eq_true_2.
      * simplify_eq/=.
        assert (Hl : lookup_column (before ++ (n, ty) :: after) n = Some ty)
          by (apply IH; eauto).
        by rewrite Hl.
Qed.

Lemma formatted_time_text tc time text :
  formatted_time host m tc time = Ok text <-> time_text host m tc time text.
Proof using Type.
  unfold formatted_time, time_text. destruct (format tc) as [f|]; [| split; congruence].
  case_bool_decide as Hf; [split; congruence |].
  destruct (format_time host f (dialect m)) as [fmt|e]; simpl.
  - split.
    + intros H. exists fmt. split; [done |].
      destruct fmt as [fmt|]; [| congruence]. case_bool_decide; congruence.
    + intros (fmt' & Heq & ->). injection Heq as <-.
      destruct fmt as [fmt|]; [| done]. by case_bool_decide.
  - split; [discriminate |]. intros (fmt & Heq & _). discriminate Heq.
Qed.

Lemma convert_to_time_column_bound tc time bound :
  time_column m = Some tc ->
  convert_to_time_column host depth m time = Ok bound <->
  exists cols ty text,
    column_types host depth m cols /\ bound_to cols (column tc) ty /\
    time_text host m tc time text /\ time_bound host ty time text bound.
Proof using Type.
  intros Htc. unfold convert_to_time_column. rewrite Htc.
  assert (Hbound : forall ty text,
            (if bool_decide (type_kind ty ∈ TEXT_TYPES)
             then Ok (literal_string (default (time_str host time) text))
             else if bool_decide (type_kind ty ∈ NUMERIC_TYPES)
             then Ok (literal_number (default (time_str host time) text))
             else if bool_decide (type_kind ty ∈ TEMPORAL_TYPES)
             then Ok (cast (literal_string (default (time_str host time) text)) ty)
             else Ok (match text with
                      | Some s => literal_string s
                      | None => convert_time host time
                      end)) = Ok bound <->
            time_bound host ty time text bound).
  { intros ty text. unfold time_bound. cbv zeta.
    destruct (text_kind_disjoint (type_kind ty)) as [Hnum Htemp].
    destruct (decide (type_kind ty ∈ TEXT_TYPES)) as [Ht | Ht].
    { rewrite bool_decide_eq_true_2 by done. split.
      - intros Heq. injection Heq as <-. split; [done |].
        split; [intros Hn; by destruct (Hnum Hn) |].
        split; [intros Hx; by destruct (proj1 (Htemp Hx)) |].
        intros Hx. exfalso. apply Hx. apply elem_of_app. by left.
      - intros (H1 & _). by rewrite (H1 Ht). }
    rewrite bool_decide_eq_false_2 by done.
    destruct (decide (type_kind ty ∈ NUMERIC_TYPES)) as [Hn | Hn].
    { rewrite bool_decide_eq_true_2 by done. split.
      - intros Heq. injection Heq as <-. split; [done |]. split; [done |].
        split; [intros Hx; by destruct (proj2 (Htemp Hx)) |].
        intros Hx. exfalso. apply Hx. apply elem_of_app. right.
        apply elem_of_app. by left.
      - intros (_ & H2 & _). by rewrite (H2 Hn). }
    rewrite bool_decide_eq_false_2 by done.
    destruct (decide (type_kind ty ∈ TEMPORAL_TYPES)) as [Hx | Hx].
    { rewrite bool_decide_eq_true_2 by done. split.
      - intros Heq. injection Heq as <-. split; [done |]. split; [done |].
        split; [done |].
        intros Hy. exfalso. apply Hy. apply elem_of_app. right.
        apply elem_of_app. by right.
      - intros (_ & _ & H3 & _). by rewrite (H3 Hx). }
    rewrite bool_decide_eq_false_2 by done. split.
    - intros Heq. injection Heq as <-. by repeat split.
    - intros (_ & _ & _ & H4). rewrite H4; [done |].
      rewrite !not_elem_of_app. done. }
  split.
  - intros H. apply bind_Ok in H as (text & Htext & H).
    apply bind_Ok in H as (cols & Hcols & H).
    apply bind_Ok in H as (ty & Hty & H). apply of_option_Ok in Hty.
    exists cols, ty, text. split; [by apply columns_types |].
    split; [by apply lookup_column_bound |]. split; [by apply formatted_time_text |].
    by apply Hbound.
  - intros (cols & ty & text & Hcols & Hty & Htext & Hb).
    apply columns_types in Hcols. apply lookup_column_bound in Hty.
    apply formatted_time_text in Htext. rewrite Htext. simpl. rewrite Hcols. simpl.
    rewrite Hty. simpl. by apply Hbound.
Qed.
End reading.

Lemma time_column_projection_first col sel projection :
  time_column_projection col (expressions sel) = Ok projection <->
  first_named col sel projection.
Proof.
  unfold first_named. generalize (expressions sel). intros es.
  induction es as [|e es IH]; simpl.
  - split; [discriminate |]. intros (before & after & H & _). by destruct before.
  - case_bool_decide as He.
    + split.
      * intros Heq. injection Heq as <-. exists [], es. by repeat split.
      * intros (before & after & Heq & Hbefore & Hname).
        destruct before as [|x before]; simplify_eq/=; [done |].
        apply Forall_cons in Hbefore as [Hx _]. by destruct Hx.
    + rewrite IH. split.
      * intros (before & after & -> & Hbefore & Hname).
        exists (e :: before), after. repeat split; [| done]. by constructor.
      * intros (before & after & Heq & Hbefore & Hname).
        destruct before as [|x before]; simplify_eq/=.
        apply Forall_cons in Hbefore as [_ Hbefore]. eauto.
Qed.

Lemma unaliased_Ok projection p :
  (if bool_decide (class_of projection = Alias) then
     match this projection with
     | Exp t => Ok t
     | _ => Raise AttributeError
     end
   else Ok projection) = Ok p <->
  unaliased projection = Some p.
Proof.
  unfold unaliased. case_bool_decide; [| split; congruence].
  destruct (this projection); split; congruence.
Qed.

Lemma apply_conjunction_with key into predicate sel sel' :
  apply_conjunction key into predicate sel = Ok sel' <->
  exists existing,
    existing_condition key sel existing /\
    sel' = with_condition key into existing predicate sel.
Proof.
  destruct sel as [cls args]. unfold with_condition, existing_condition, arg.
  cbn [apply_conjunction class_of args_of].
  destruct (get args key) as [clause| | | |] eqn:Hget.
  - destruct (this clause) as [c| | | |] eqn:Hc.
    + split.
      * intros Heq. injection Heq as <-. exists (Some c). split; [eauto | done].
      * intros ([c'|] & Hex & ->); [| discriminate].
        destruct Hex as (clause' & Hcl & Hc'). simplify_eq. congruence.
    + split; [discriminate |].
      intros ([c'|] & Hex & ->); [| discriminate].
      destruct Hex as (clause' & Hcl & Hc'). simplify_eq. congruence.
    + split; [discriminate |].
      intros ([c'|] & Hex & ->); [| discriminate].
      destruct Hex as (clause' & Hcl & Hc'). simplify_eq. congruence.
    + split; [discriminate |].
      intros ([c'|] & Hex & ->); [| discriminate].
      destruct Hex as (clause' & Hcl & Hc'). simplify_eq. congruence.
    + split; [discriminate |].
      intros ([c'|] & Hex & ->); [| discriminate].
      destruct Hex as (clause' & Hcl & Hc'). simplify_eq. congruence.
  - split; [discriminate |].
    intros ([c'|] & Hex & ->); [| discriminate].
    by destruct Hex as (clause' & Hcl & Hc').
  - split; [discriminate |].
    intros ([c'|] & Hex & ->); [| discriminate].
    by destruct Hex as (clause' & Hcl & Hc').
  - split; [discriminate |].
    intros ([c'|] & Hex & ->); [| discriminate].
    by destruct Hex as (clause' & Hcl & Hc').
  - split.
    + intros Heq. injection Heq as <-. by exists None.
    + intros ([c'|] & Hex & ->); [| done].
      by destruct Hex as (clause' & Hcl & Hc').
Qed.

(** The time filter of a SELECT, read off the SELECT and the model. *)
Lemma filter_time_column_spec host depth m tc start end_ sel sel' :
  time_column m = Some tc ->
  _filter_time_column host depth m sel start end_ = Ok sel' <->
  time_filter_of host depth m tc start end_ sel sel'.
Proof.
  intros Htc. unfold _filter_time_column, time_filter_of. rewrite Htc.
  assert (Hclause :
    forall predicate,
      (if arg_truthy (arg sel "group")
       then having_clause predicate sel else where_clause predicate sel) = Ok sel' <->
      exists existing,
        existing_condition (filter_key sel) sel existing /\
        sel' = with_condition (filter_key sel) (filter_class sel) existing predicate sel).
  { intros predicate. unfold filter_key, filter_class, having_clause, where_clause.
    destruct (arg_truthy (arg sel "group")); apply apply_conjunction_with. }
  split.
  - intros H. apply bind_Ok in H as (low & Hlow & H).
    apply bind_Ok in H as (high & Hhigh & H).
    apply bind_Ok in H as (projection & Hproj & H).
    apply bind_Ok in H as (p & Hp & H).
    apply (convert_to_time_column_bound _ _ _ tc) in Hlow
      as (cols & ty & ws & Hcols & Hty & Hws & Hbl); [| done].
    apply (convert_to_time_column_bound _ _ _ tc) in Hhigh
      as (cols' & ty' & we & Hcols' & Hty' & Hwe & Hbh); [| done].
    apply columns_types in Hcols, Hcols'. rewrite Hcols in Hcols'.
    injection Hcols' as <-. apply columns_types in Hcols.
    apply lookup_column_bound in Hty, Hty'. rewrite Hty in Hty'.
    injection Hty' as <-. apply lookup_column_bound in Hty.
    apply time_column_projection_first in Hproj. apply unaliased_Ok in Hp.
    apply Hclause in H as (existing & Hex & ->).
    exists cols, ty, projection, p, ws, we, low, high, existing. done.
  - intros (cols & ty & projection & p & ws & we & low & high & existing
            & Hcols & Hty & Hproj & Hp & Hws & Hwe & Hbl & Hbh & Hex & ->).
    assert (Hlow : convert_to_time_column host depth m start = Ok low).
    { apply (convert_to_time_column_bound _ _ _ tc); [done |]. eauto 10. }
    assert (Hhigh : convert_to_time_column host depth m end_ = Ok high).
    { apply (convert_to_time_column_bound _ _ _ tc); [done |]. eauto 10. }
    rewrite Hlow, Hhigh. simpl.
    apply time_column_projection_first in Hproj. rewrite Hproj. simpl.
    apply unaliased_Ok in Hp. rewrite Hp. simpl.
    apply Hclause. eauto.
Qed.

Lemma filter_time_column_class host depth m sel start end_ sel' :
  _filter_time_column host depth m sel start end_ = Ok sel' ->
  class_of sel' = class_of sel.
Proof.
  destruct (time_column m) as [tc|] eqn:Htc.
  - intros H. apply (filter_time_column_spec _ _ _ tc) in H; [| done].
    destruct H as (? & ? & ? & ? & ? & ? & ? & ? & ? & _ & _ & _ & _ & _ & _ & _
                   & _ & _ & ->).
    done.
  - unfold _filter_time_column. rewrite Htc. by intros [= <-].
Qed.

(** The walk of [render_query] filters the SELECTs it reaches, each one
    on its own. *)
Lemma filter_selects_top host depth m start end_ q : forall q',
  filter_selects host depth m start end_ q = Ok q' ->
  Forall2 (fun sel sel' => _filter_time_column host depth m sel start end_ = Ok sel')
          (top_selects q) (top_selects q').
Proof.
  induction q as [cls args IH] using Expression_ind'. intros q' H.
  cbn [filter_selects] in H. cbn [top_selects]. case_bool_decide as Hcls.
  - subst cls. pose proof (filter_time_column_class _ _ _ _ _ _ _ H) as Hc.
    destruct q' as [cls' args']. simpl in Hc. subst cls'.
    cbn [top_selects]. rewrite bool_decide_eq_true_2 by done.
    by constructor.
  - destruct (replace_children _ tt args) as [[u args']|] eqn:Hrc; [| discriminate].
    simpl in H. injection H as <-. cbn [top_selects].
    rewrite bool_decide_eq_false_2 by done.
    clear Hcls. revert args' u Hrc.
    induction args as [|[k a] args IHargs]; simpl; intros args' u Hrc.
    + injection Hrc as <- <-. constructor.
    + apply Forall_cons in IH as [Ha IH]. simpl in Ha.
      apply bind_Ok in Hrc as ([u1 a'] & Ha' & Hrc).
      apply bind_Ok in Hrc as ([u2 tl] & Htl & Hrc). injection Hrc as <- <-.
      simpl. apply Forall2_app; [| destruct u1; exact (IHargs IH _ _ Htl)].
      destruct a as [e|es| | |]; simpl in Ha'.
      * apply bind_Ok in Ha' as ([u0 new] & Hnew & Ha'). injection Ha' as <- <-.
        apply bind_Ok in Hnew as (e' & He' & Hnew). injection Hnew as <- <-.
        simpl. by apply Ha.
      * apply bind_Ok in Ha' as ([u0 new] & Hnew & Ha'). injection Ha' as <- <-.
        simpl. clear -Ha Hnew. revert new u0 Hnew.
        induction es as [|e es IHes]; simpl; intros new u0 Hnew.
        -- injection Hnew as <- <-. constructor.
        -- apply Forall_cons in Ha as [He Ha].
           apply bind_Ok in Hnew as ([u1 new1] & Hnew1 & Hnew).
           apply bind_Ok in Hnew as ([u2 tl] & Htl & Hnew). injection Hnew as <- <-.
           apply bind_Ok in Hnew1 as (e' & He' & Hnew1). injection Hnew1 as <- <-.
           simpl. apply Forall2_app; [by apply He | exact (IHes Ha _ _ Htl)].
      * injection Ha' as <- <-. constructor.
      * injection Ha' as <- <-. constructor.
      * injection Ha' as <- <-. constructor.
Qed.
End time_filter_lemmas.

Module time_filter_claims.
Import exp macros model time_filter time_filter_facts time_filter_lemmas.

Lemma time_bound_exists host ty time text :
  exists bound, time_bound host ty time text bound.
Proof.
  unfold time_bound. cbv zeta.
  destruct (text_kind_disjoint (type_kind ty)) as [Hnum Htemp].
  destruct (decide (type_kind ty ∈ TEXT_TYPES)) as [Ht | Ht].
  { exists (literal_string (default (time_str host time) text)).
    split; [done |]. split; [intros Hn; by destruct (Hnum Hn) |].
    split; [intros Hx; by destruct (proj1 (Htemp Hx)) |].
    intros Hx. exfalso. apply Hx. apply elem_of_app. by left. }
  destruct (decide (type_kind ty ∈ NUMERIC_TYPES)) as [Hn | Hn].
  { exists (literal_number (default (time_str host time) text)).
    split; [done |]. split; [done |].
    split; [intros Hx; by destruct (proj2 (Htemp Hx)) |].
    intros Hx. exfalso. apply Hx. apply elem_of_app. right.
    apply elem_of_app. by left. }
  destruct (decide (type_kind ty ∈ TEMPORAL_TYPES)) as [Hx | Hx].
  { exists (cast (literal_string (default (time_str host time) text)) ty).
    split; [done |]. split; [done |]. split; [done |].
    intros Hy. exfalso. apply Hy. apply elem_of_app. right.
    apply elem_of_app. by right. }
  exists (match text with
          | Some s => literal_string s
          | None => convert_time host time
          end).
  by repeat split.
Qed.

(** C6.  Take a model with a time column, the type [ty] its columns give
    to that column, a SELECT whose first projection of that name stands
    for [p], and the text of the two ends of the window in the declared
    format of the time column (formatted by strftime when a format is
    declared, the time as it is written otherwise).  Then
    [_filter_time_column] returns the SELECT with the predicate
    [p BETWEEN low AND high] conjoined to its WHERE clause when it has no
    GROUP BY and to its HAVING clause otherwise, everything else being
    left as it is; and the bounds follow the type of the column: string
    literals of the two texts for a text type, numeric literals for a
    numeric type, casts of the string literals to [ty] for a temporal
    type. *)
Theorem filter_time_column_injects host depth m tc sel start end_
    cols ty projection p written_start written_end existing :
  time_column m = Some tc ->
  column_types host depth m cols ->
  bound_to cols (column tc) ty ->
  first_named (column tc) sel projection ->
  unaliased projection = Some p ->
  time_text host m tc start written_start ->
  time_text host m tc end_ written_end ->
  existing_condition (if arg_truthy (arg sel "group") then "having" else "where")
    sel existing ->
  exists low high,
    _filter_time_column host depth m sel start end_
      = Ok (if arg_truthy (arg sel "group")
            then with_condition "having" Having existing (between p low high) sel
            else with_condition "where" Where existing (between p low high) sel) /\
    let text_start := default (time_str host start) written_start in
    let text_end := default (time_str host end_) written_end in
    (type_kind ty ∈ TEXT_TYPES ->
       low = literal_string text_start /\ high = literal_string text_end) /\
    (type_kind ty ∈ NUMERIC_TYPES ->
       low = literal_number text_start /\ high = literal_number text_end) /\
    (type_kind ty ∈ TEMPORAL_TYPES ->
       low = cast (literal_string text_start) ty /\
       high = cast (literal_string text_end) ty).
Proof.
  intros Htc Hcols Hty Hproj Hp Hws Hwe Hex.
  destruct (time_bound_exists host ty start written_start) as [low Hlow].
  destruct (time_bound_exists host ty end_ written_end) as [high Hhigh].
  exists low, high. split.
  - apply (filter_time_column_spec _ _ _ tc); [done |].
    exists cols, ty, projection, p, written_start, written_end, low, high, existing.
    unfold filter_key, filter_class.
    repeat (split; [done |]). by destruct (arg_truthy (arg sel "group")).
  - destruct Hlow as (Hl1 & Hl2 & Hl3 & _), Hhigh as (Hh1 & Hh2 & Hh3 & _).
    cbv zeta. repeat split; auto.
Qed.

Lemma filter_time_column_injects_witness :
  _filter_time_column example.host 3 example.items (query example.items)
    (TimeStr "2021-01-01") (TimeStr "2021-01-01")
  = Ok (example.select_ds (example.table "raw")
          [("where", Exp (Node Where [("this", Exp example.ds_between)]))]).
Proof.
  destruct (filter_time_column_injects example.host 3 example.items example.ds_column
              (query example.items) (TimeStr "2021-01-01") (TimeStr "2021-01-01")
              [("ds", example.data_type "TEXT")] (example.data_type "TEXT")
              example.ds_as_text
              (cast (example.column_ "ds") (example.data_type "TEXT"))
              (Some "20210101") (Some "20210101") None)
    as (low & high & Hfilter & Htext & _).
  - reflexivity.
  - unfold column_types. simpl. eexists. split; [reflexivity |].
    constructor; [| constructor]. split; [reflexivity |].
    eexists. split; reflexivity.
  - exists [], []. split; [reflexivity | apply not_elem_of_nil].
  - exists [], []. split; [reflexivity |]. split; [constructor | reflexivity].
  - reflexivity.
  - unfold time_text. simpl. eexists. split; reflexivity.
  - unfold time_text. simpl. eexists. split; reflexivity.
  - reflexivity.
  - destruct Htext as [-> ->]; [vm_compute; set_solver |].
    exact Hfilter.
Defined.
End time_filter_claims.

Module render_claims.
Import exp macros model time_filter time_filter_facts time_filter_lemmas.



End render_claims.


(** ** More about the context diff *)

Module context_diff_entries.
Import snapshot context_diff context_diff_facts.

Lemma NoDup_fst_eq {A} (l : list (string * A)) n r r' :
  NoDup l.*1 -> (n, r) ∈ l -> (n, r') ∈ l -> r = r'.
Proof.
  induction l as [|[k v] l IH]; simpl; intros Hnd H1 H2.
  - by apply elem_of_nil in H1.
  - apply NoDup_cons in Hnd as [Hk Hnd].
    apply elem_of_cons in H1 as [[= -> ->] | H1];
      apply elem_of_cons in H2 as [[= <-] | H2]; try done.
    + exfalso. apply Hk. apply list_elem_of_fmap. by exists (k, r').
    + exfalso. apply Hk. apply list_elem_of_fmap. by exists (n, r).
    + eauto.
Qed.

(** What one iteration of the first loop leaves behind. *)
Lemma merge_one_exact mi stored l n r l' :
  merge_one mi stored l (n, r) = Ok l' ->
  exists s0 sc cur,
    objects l !! r = Some s0 /\
    objects l' = objects l ++ [sc] /\
    merged_snapshots l' = <[n := length (objects l)]> (merged_snapshots l) /\
    modified_snapshots l' =
      match mi !! n with
      | Some m =>
          match stored (info_snapshot_id m) with
          | Some old => <[n := (cur, old)]> (modified_snapshots l)
          | None => modified_snapshots l
          end
      | None => modified_snapshots l
      end /\
    (forall m, mi !! n = Some m -> is_Some (stored (info_snapshot_id m))) /\
    match stored (snapshot_id s0) with
    | Some existing =>
        cur = existing /\ new_snapshots l' = new_snapshots l /\
        objects l !! existing = Some sc
    | None =>
        cur = length (objects l) /\
        new_snapshots l' = new_snapshots l ++ [cur] /\
        sc = match mi !! n with
             | Some m => with_previous_versions (all_versions m) s0
             | None => s0
             end
    end.
Proof.
  intros H. merge_one_cases H n mi stored l.
  - exists s0, e, existing. rewrite Hst, Hold. repeat split; try done.
    intros m' [= <-]. eauto.
  - exists s0, e, existing. rewrite Hst. repeat split; done.
  - exists s0, (with_previous_versions (all_versions m) s0), (length (objects l)).
    rewrite Hst, Hold. repeat split; try done.
    intros m' [= <-]. eauto.
  - exists s0, s0, (length (objects l)). rewrite Hst. repeat split; done.
Qed.

(** What the first loop leaves behind for each of its items: the current
    snapshot of the name is the stored one, or a fresh copy that is listed
    as new; the name is modified exactly when [mi] has it. *)
Lemma merge_all_entry mi stored items : forall l l',
  NoDup items.*1 ->
  Forall (fun item : string * nat => item.2 < length (objects l)) items ->
  merge_all mi stored l items = Ok l' ->
  (forall n, n ∉ items.*1 ->
     modified_snapshots l' !! n = modified_snapshots l !! n /\
     merged_snapshots l' !! n = merged_snapshots l !! n) /\
  (forall n r, (n, r) ∈ items ->
     exists s0 cur,
       objects l !! r = Some s0 /\
       modified_snapshots l' !! n =
         match mi !! n with
         | Some m => (fun old => (cur, old)) <$> stored (info_snapshot_id m)
         | None => modified_snapshots l !! n
         end /\
       (forall m, mi !! n = Some m -> is_Some (stored (info_snapshot_id m))) /\
       match stored (snapshot_id s0) with
       | Some existing => cur = existing
       | None =>
           cur ∈ new_snapshots l' /\ length (objects l) <= cur /\
           merged_snapshots l' !! n = Some cur /\
           objects l' !! cur =
             Some (match mi !! n with
                   | Some m => with_previous_versions (all_versions m) s0
                   | None => s0
                   end)
       end) /\
  (forall c, c ∈ new_snapshots l' ->
     c ∈ new_snapshots l \/
     exists n r s0,
       (n, r) ∈ items /\ objects l !! r = Some s0 /\
       stored (snapshot_id s0) = None /\
       merged_snapshots l' !! n = Some c /\
       objects l' !! c =
         Some (match mi !! n with
               | Some m => with_previous_versions (all_versions m) s0
               | None => s0
               end)).
Proof.
  induction items as [|[n0 r0] items IH]; simpl; intros l l' Hnd Hvalid H.
  - inv_result. split; [done |]. split; [| by left].
    intros n r Hin. by apply elem_of_nil in Hin.
  - apply NoDup_cons in Hnd as [Hn0 Hnd].
    apply Forall_cons in Hvalid as [Hr0 Hvalid]. simpl in Hr0.
    apply bind_Ok in H as (a & Ha & H).
    pose proof (merge_all_objects _ _ _ _ _ H) as (ext & Hext & _).
    pose proof (merge_all_new _ _ _ _ _ H) as (news & Hnews & _).
    destruct (merge_one_exact _ _ _ _ _ _ Ha)
      as (s0 & sc & cur & Hs0 & Hobj & Hmerged & Hmod & Hold & Hbranch).
    assert (Hvalid' : Forall (fun item : string * nat => item.2 < length (objects a)) items).
    { eapply Forall_impl; [exact Hvalid |]. simpl. intros x Hx.
      rewrite Hobj, length_app. lia. }
    destruct (IH _ _ Hnd Hvalid' H) as (Hout & Hitems & Hnew).
    assert (Hmod_ne : forall n, n <> n0 ->
              modified_snapshots a !! n = modified_snapshots l !! n).
    { intros n Hne. rewrite Hmod.
      destruct (mi !! n0) as [m|]; [| done].
      destruct (stored (info_snapshot_id m)); [| done].
      by rewrite lookup_insert_ne. }
    split; [| split].
    + intros n Hn. apply not_elem_of_cons in Hn as [Hne Hn].
      destruct (Hout n Hn) as [-> ->]. split; [by apply Hmod_ne |].
      rewrite Hmerged. by rewrite lookup_insert_ne.
    + intros n r Hin. apply elem_of_cons in Hin as [[= -> ->] | Hin].
      * destruct (Hout n0 Hn0) as [Hm' Hg'].
        exists s0, cur. split; [done |]. split; [| split; [done |]].
        -- rewrite Hm', Hmod. destruct (mi !! n0) as [m|]; [| done].
           destruct (Hold m eq_refl) as [old ->]. simpl.
           by rewrite lookup_insert_eq.
        -- destruct (stored (snapshot_id s0)) as [existing|].
           ++ by destruct Hbranch.
           ++ destruct Hbranch as (-> & Hn & ->).
              split; [rewrite Hnews, Hn; set_solver |]. split; [done |].
              split; [rewrite Hg', Hmerged; by rewrite lookup_insert_eq |].
              rewrite Hext, Hobj. apply lookup_app_l_Some.
              by apply list_lookup_middle.
      * assert (Hne : n <> n0).
        { intros ->. apply Hn0. apply list_elem_of_fmap. by exists (n0, r). }
        destruct (Hitems n r Hin) as (s1 & cur1 & Hs1 & Hm1 & Hold1 & Hb1).
        assert (Hs1' : objects l !! r = Some s1).
        { rewrite Hobj in Hs1. rewrite lookup_app_l in Hs1; [done |].
          rewrite Forall_forall in Hvalid. exact (Hvalid _ Hin). }
        exists s1, cur1. split; [done |]. split; [| split; [done |]].
        -- rewrite Hm1. destruct (mi !! n); [done |]. by apply Hmod_ne.
        -- destruct (stored (snapshot_id s1)); [done |].
           destruct Hb1 as (? & Hge & ? & ?). repeat split; try done.
           rewrite Hobj, length_app in Hge. lia.
    + intros c Hc. destruct (Hnew c Hc) as [Hold_new | (n & r & s1 & Hin & Hs1 & Hst & Hg & Hc')].
      * destruct (stored (snapshot_id s0)) as [existing|] eqn:Hst0.
        -- destruct Hbranch as (_ & Hn & _). left. by rewrite <- Hn.
        -- destruct Hbranch as (-> & Hn & ->). rewrite Hn in Hold_new.
           apply elem_of_app in Hold_new as [? | Hc0]; [by left |].
           apply list_elem_of_singleton in Hc0 as ->. right.
           destruct (Hout n0 Hn0) as [_ Hg'].
           exists n0, r0, s0. split; [set_solver |]. split; [done |]. split; [done |].
           split; [rewrite Hg', Hmerged; by rewrite lookup_insert_eq |].
           rewrite Hext, Hobj. apply lookup_app_l_Some.
           by apply list_lookup_middle.
      * right. exists n, r, s1. split; [set_solver |]. split; [| done].
        rewrite Hobj in Hs1. rewrite lookup_app_l in Hs1; [done |].
        rewrite Forall_forall in Hvalid. exact (Hvalid _ Hin).
Qed.


Lemma modified_info_of_spec h existing_info added items : forall mods,
  modified_info_of h existing_info added items = Ok mods ->
  (forall n info, (n, info) ∈ mods <->
     exists r s, (n, r) ∈ items /\ (n ∉ added) /\ h !! r = Some s /\
       existing_info !! n = Some info /\ fingerprint s <> info_fingerprint info) /\
  mods.*1 `sublist_of` items.*1.
Proof.
  induction items as [|[n0 r0] items IH]; simpl; intros mods H.
  - inv_result. split; [| done]. intros n info. split.
    + intros Hin. by apply elem_of_nil in Hin.
    + intros (r & s & Hin & _). by apply elem_of_nil in Hin.
  - apply bind_Ok in H as (e & He & H). apply bind_Ok in H as (tl & Htl & H).
    injection H as <-. destruct (IH _ Htl) as [Hiff Hsub].
    unfold modified_entry in He.
    assert (Hrest : forall n info,
              (exists r s, (n, r) ∈ items /\ (n ∉ added) /\ h !! r = Some s /\
                 existing_info !! n = Some info /\
                 fingerprint s <> info_fingerprint info) ->
              exists r s, (n, r) ∈ (n0, r0) :: items /\ (n ∉ added) /\ h !! r = Some s /\
                 existing_info !! n = Some info /\
                 fingerprint s <> info_fingerprint info).
    { intros n info (r & s & Hin & ?). exists r, s. split; [set_solver | done]. }
    case_bool_decide as Hadd.
    + injection He as <-. split; [| by apply sublist_cons].
      intros n info. rewrite Hiff. split; [by apply Hrest |].
      intros (r & s & Hin & Hn & Hs & Hinfo & Hfp).
      apply elem_of_cons in Hin as [[= -> ->] | Hin]; [done | eauto 10].
    + apply bind_Ok in He as (s0 & Hs0 & He). apply deref_Some in Hs0.
      apply bind_Ok in He as (info0 & Hinfo0 & He). apply of_option_Ok in Hinfo0.
      case_bool_decide as Hfp0; injection He as <-.
      * split; [| simpl; by apply sublist_skip].
        intros n info. rewrite elem_of_cons, Hiff. split.
        -- intros [[= -> ->] | Hin]; [| by apply Hrest].
           exists r0, s0. split; [set_solver | done].
        -- intros (r & s & Hin & Hn & Hs & Hinfo & Hfp).
           apply elem_of_cons in Hin as [[= -> ->] | Hin]; [| right; eauto 10].
           left. congruence.
      * split; [| by apply sublist_cons].
        intros n info. rewrite Hiff. split; [by apply Hrest |].
        intros (r & s & Hin & Hn & Hs & Hinfo & Hfp).
        apply elem_of_cons in Hin as [[= -> ->] | Hin]; [| eauto 10].
        exfalso. apply Hfp. congruence.
Qed.

(** The first loop of [create], with the table of modified names spelled
    out: a local name is in it when the environment knows the name under
    another fingerprint. *)
Lemma merged_state_inv env snapshots rd h l :
  NoDup snapshots.*1 ->
  merged_state env snapshots rd h = Ok l ->
  exists mi ids,
    (forall n info, mi !! n = Some info <->
       exists r s, (n, r) ∈ snapshots /\ h !! r = Some s /\
         existing_info_of (from_option env_snapshots [] env) !! n = Some info /\
         fingerprint s <> info_fingerprint info) /\
    merge_all mi (get_snapshots rd ids) (mkLocals h ∅ ∅ [] ∅) snapshots = Ok l.
Proof.
  intros Hnd H. unfold merged_state in H.
  apply bind_Ok in H as (mods & Hmods & H). apply bind_Ok in H as (ids & Hids & H).
  destruct (modified_info_of_spec _ _ _ _ _ Hmods) as [Hiff Hsub].
  eexists _, _. split; [| exact H].
  assert (Hnd' : NoDup (reverse mods).*1).
  { rewrite fmap_reverse, reverse_Permutation. by eapply sublist_NoDup. }
  intros n info. split.
  - intros Hn. apply elem_of_list_to_map_2 in Hn. rewrite elem_of_reverse in Hn.
    apply Hiff in Hn as (r & s & ? & ? & ? & ? & ?). eauto 10.
  - intros (r & s & Hin & Hs & Hinfo & Hfp).
    apply elem_of_list_to_map_1; [done |]. rewrite elem_of_reverse. apply Hiff.
    exists r, s. split; [done |]. split; [| done].
    intros Hadd. apply elem_of_difference in Hadd as [_ Hnot].
    apply Hnot. apply elem_of_dom. eauto.
Qed.

End context_diff_entries.

Module context_diff_properties.
Import snapshot context_diff context_diff_methods context_diff_facts context_diff_entries.

Lemma create_fields fresh_version environment snapshots rd h d h' :
  create fresh_version environment snapshots rd h = Ok (d, h') ->
  exists l,
    merged_state (resolve_environment environment rd).1 snapshots rd h = Ok l /\
    reuse_all fresh_version (snapshot_remote_versions l) (objects l)
      (new_snapshots l) = Ok h' /\
    let existing_info :=
      existing_info_of (from_option env_snapshots []
                          (resolve_environment environment rd).1) in
    d = ContextDiff.mk (resolve_environment environment rd).2
          (keys snapshots ∖ dom existing_info)
          (dom existing_info ∖ keys snapshots)
          (modified_snapshots l) (merged_snapshots l) (new_snapshots l)
          (plan_id <$> (resolve_environment environment rd).1).
Proof.
  unfold create. destruct (resolve_environment environment rd) as [env ename].
  intros H. apply bind_Ok in H as (l & Hl & H). apply bind_Ok in H as (h1 & Hh1 & H).
  injection H as <- <-. exists l. simpl. eauto.
Qed.

(** The names of the modified snapshots, in terms of the first loop. *)
Lemma merged_state_modified_dom env snapshots rd h l :
  NoDup snapshots.*1 ->
  merged_state env snapshots rd h = Ok l ->
  forall n,
    n ∈ dom (modified_snapshots l) <->
    exists r s info,
      (n, r) ∈ snapshots /\ h !! r = Some s /\
      existing_info_of (from_option env_snapshots [] env) !! n = Some info /\
      fingerprint s <> info_fingerprint info.
Proof.
  intros Hnd Hl n.
  pose proof (merged_state_valid _ _ _ _ _ Hl) as Hvalid.
  destruct (merged_state_inv _ _ _ _ _ Hnd Hl) as (mi & ids & Hmi & Hall).
  destruct (merge_all_entry _ _ _ (mkLocals h ∅ ∅ [] ∅) _ Hnd Hvalid Hall)
    as (Hout & Hitems & _).
  simpl in *. split.
  - intros Hn. apply elem_of_dom in Hn as [p Hp].
    destruct (decide (n ∈ snapshots.*1)) as [Hin | Hnot].
    + apply list_elem_of_fmap in Hin as ([n' r] & -> & Hin). simpl in *.
      destruct (Hitems _ _ Hin) as (s0 & cur & Hs0 & Hmod & _).
      rewrite Hp in Hmod. destruct (mi !! n') as [m|] eqn:Hm; [| done].
      apply Hmi in Hm as (r' & s & Hin' & Hs & Hinfo & Hfp). eauto 10.
    + destruct (Hout n Hnot) as [Hmod _]. by rewrite Hp in Hmod.
  - intros (r & s & info & Hin & Hs & Hinfo & Hfp).
    assert (Hm : mi !! n = Some info) by (apply Hmi; eauto 10).
    destruct (Hitems _ _ Hin) as (s0 & cur & Hs0 & Hmod & Hold & _).
    rewrite Hm in Hmod. destruct (Hold _ Hm) as [old Hst]. rewrite Hst in Hmod.
    apply elem_of_dom. eauto.
Qed.

Lemma create_modified_dom fresh_version environment snapshots rd h d h' :
  NoDup snapshots.*1 ->
  create fresh_version environment snapshots rd h = Ok (d, h') ->
  forall n,
    n ∈ dom (ContextDiff.modified_snapshots d) <->
    exists r s info,
      (n, r) ∈ snapshots /\ h !! r = Some s /\
      existing_info_of (from_option env_snapshots []
                          (resolve_environment environment rd).1) !! n = Some info /\
      fingerprint s <> info_fingerprint info.
Proof.
  intros Hnd H n. destruct (create_fields _ _ _ _ _ _ _ H) as (l & Hl & _ & ->).
  simpl. by eapply merged_state_modified_dom.
Qed.

(** X1.  A model is reported as modified exactly when it is defined locally
    and the environment holds it under another fingerprint. *)
Theorem create_modified_names fresh_version environment snapshots rd h d h' :
  NoDup snapshots.*1 ->
  create fresh_version environment snapshots rd h = Ok (d, h') ->
  forall n,
    n ∈ dom (ContextDiff.modified_snapshots d) <->
    exists r s info,
      (n, r) ∈ snapshots /\ h !! r = Some s /\
      existing_info_of (from_option env_snapshots []
                          (resolve_environment environment rd).1) !! n = Some info /\
      fingerprint s <> info_fingerprint info.
Proof. exact (create_modified_dom fresh_version environment snapshots rd h d h'). Qed.

Lemma create_modified_names_witness :
  exists d h',
    scenario.run = Ok (d, h') /\
    dom (ContextDiff.modified_snapshots d) = {["a"; "b"]}.
Proof.
  destruct scenario.run as [[d h']|e] eqn:E; [| vm_compute in E; discriminate E].
  exists d, h'. split; [reflexivity |].
  assert (Hnd : NoDup scenario.local_snapshots.*1).
  { apply (bool_decide_unpack (NoDup _)). vm_compute. exact I. }
  pose proof (create_modified_names _ _ _ _ _ _ _ Hnd E) as Hiff.
  apply set_eq. intros n. rewrite Hiff. split.
  - intros (r & s & info & Hin & _). 
    apply elem_of_cons in Hin as [[= -> ->] | Hin]; [set_solver |].
    apply elem_of_cons in Hin as [[= -> ->] | Hin]; [set_solver |].
    by apply elem_of_nil in Hin.
  - intros Hn. apply elem_of_union in Hn as [Hn | Hn];
      apply elem_of_singleton in Hn as ->.
    + exists 0, scenario.local_a, (mkTableInfo "a" scenario.fA1 "dA1" [mkDataVersion scenario.fA1 "dA1"]).
      repeat split; [set_solver | discriminate].
    + exists 1, scenario.local_b, (mkTableInfo "b" scenario.fB1 "vB0" [mkDataVersion scenario.fB1 "vB0"]).
      repeat split; [set_solver | discriminate].
Defined.

(** X2.  A diff has no differences exactly when the local names are the names
    of the environment and every local snapshot has the fingerprint the
    environment holds for its name. *)
Theorem create_has_differences fresh_version environment snapshots rd h d h' :
  NoDup snapshots.*1 ->
  create fresh_version environment snapshots rd h = Ok (d, h') ->
  let existing_info :=
    existing_info_of (from_option env_snapshots []
                        (resolve_environment environment rd).1) in
  has_differences d = false <->
    keys snapshots = dom existing_info /\
    forall n r s info,
      (n, r) ∈ snapshots -> h !! r = Some s -> existing_info !! n = Some info ->
      fingerprint s = info_fingerprint info.
Proof.
  intros Hnd H existing_info.
  pose proof (create_modified_dom _ _ _ _ _ _ _ Hnd H) as Hmod.
  destruct (create_fields _ _ _ _ _ _ _ H) as (l & _ & _ & ->).
  simpl in Hmod. fold existing_info in Hmod |- *. clearbody existing_info.
  unfold has_differences. rewrite !orb_false_iff, !negb_false_iff.
  rewrite !bool_decide_eq_true. simpl. split.
  - intros [[Hadd Hrem] Hm]. split.
    { clear -Hadd Hrem. apply set_eq. intros x.
      destruct (decide (x ∈ keys snapshots)), (decide (x ∈ dom existing_info));
        set_solver. }
    intros n r s info Hin Hs Hinfo.
    destruct (decide (fingerprint s = info_fingerprint info)) as [| Hne]; [done |].
    assert (Hn : n ∈ dom (modified_snapshots l)) by (apply Hmod; eauto 10).
    rewrite Hm in Hn. set_solver.
  - intros [Hkeys Hfp]. split; [clear -Hkeys; split; set_solver |].
    apply map_empty. intros n. apply not_elem_of_dom. rewrite Hmod.
    intros (r & s & info & Hin & Hs & Hinfo & Hne). eauto.
Qed.

Lemma create_has_differences_witness :
  exists d h',
    scenario.run = Ok (d, h') /\ has_differences d = true.
Proof.
  destruct scenario.run as [[d h']|e] eqn:E; [| vm_compute in E; discriminate E].
  exists d, h'. split; [reflexivity |].
  assert (Hnd : NoDup scenario.local_snapshots.*1).
  { apply (bool_decide_unpack (NoDup _)). vm_compute. exact I. }
  pose proof (create_has_differences _ _ _ _ _ _ _ Hnd E) as Hiff. simpl in Hiff.
  destruct (has_differences d); [done |].
  destruct Hiff as [Hiff _]. destruct (Hiff eq_refl) as [_ Hfp].
  specialize (Hfp "a" 0 scenario.local_a
                (mkTableInfo "a" scenario.fA1 "dA1" [mkDataVersion scenario.fA1 "dA1"])).
  discriminate Hfp; [set_solver | done | done].
Defined.

(** X3.  Against an environment that does not exist every local model is
    added, and nothing is removed or modified. *)
Theorem create_missing_environment fresh_version n snapshots rd h d h' :
  get_environment rd n = None ->
  create fresh_version (inl n) snapshots rd h = Ok (d, h') ->
  ContextDiff.environment d = n /\
  ContextDiff.added d = keys snapshots /\
  ContextDiff.removed d = ∅ /\
  ContextDiff.modified_snapshots d = ∅ /\
  ContextDiff.previous_plan_id d = None.
Proof.
  intros Henv H.
  destruct (create_fields _ _ _ _ _ _ _ H) as (l & Hl & _ & ->).
  simpl in *. rewrite Henv in *. simpl in *.
  apply merged_state_domains in Hl as (_ & Hsub & Hdisj). simpl in Hdisj.
  unfold existing_info_of in *. simpl in *. rewrite dom_empty_L in *.
  repeat split; [set_solver | set_solver |].
  apply map_empty. intros k. apply not_elem_of_dom. set_solver.
Qed.

Lemma create_missing_environment_witness :
  exists d h',
    create scenario.fresh (inl "dev") scenario.local_snapshots scenario.reader
      scenario.objects0 = Ok (d, h') /\
    ContextDiff.environment d = "dev" /\
    ContextDiff.added d = keys scenario.local_snapshots /\
    ContextDiff.removed d = ∅ /\
    ContextDiff.modified_snapshots d = ∅ /\
    ContextDiff.previous_plan_id d = None.
Proof.
  destruct (create scenario.fresh (inl "dev") scenario.local_snapshots scenario.reader
              scenario.objects0) as [[d h']|e] eqn:E;
    [| vm_compute in E; discriminate E].
  exists d, h'. split; [reflexivity |].
  exact (create_missing_environment scenario.fresh "dev" scenario.local_snapshots
           scenario.reader scenario.objects0 d h' eq_refl E).
Defined.

(** X4.  Every new snapshot of a diff is the merged entry of a local name and
    a copy of the caller's snapshot of that name: name, fingerprint,
    indirect versions and creation time are the caller's; the version
    history is the caller's too, unless the model is modified, in which
    case it is the history the environment keeps for the name. *)
Theorem create_new_snapshot_fields fresh_version environment snapshots rd h d h' :
  NoDup snapshots.*1 ->
  create fresh_version environment snapshots rd h = Ok (d, h') ->
  forall c, c ∈ ContextDiff.new_snapshots d ->
  exists n r s s',
    (n, r) ∈ snapshots /\ h !! r = Some s /\
    ContextDiff.snapshots d !! n = Some c /\ h' !! c = Some s' /\
    name s' = name s /\ fingerprint s' = fingerprint s /\
    indirect_versions s' = indirect_versions s /\
    created_ts s' = created_ts s /\
    previous_versions s' =
      match existing_info_of (from_option env_snapshots []
                                (resolve_environment environment rd).1) !! n with
      | Some info =>
          if bool_decide (fingerprint s = info_fingerprint info)
          then previous_versions s else all_versions info
      | None => previous_versions s
      end.
Proof.
  intros Hnd H c Hc.
  destruct (create_fields _ _ _ _ _ _ _ H) as (l & Hl & Hreuse & ->).
  simpl in *.
  pose proof (merged_state_valid _ _ _ _ _ Hl) as Hvalid.
  pose proof (merged_state_new _ _ _ _ _ Hl) as (_ & _ & Hndnew).
  destruct (merged_state_inv _ _ _ _ _ Hnd Hl) as (mi & ids & Hmi & Hall).
  destruct (merge_all_entry _ _ _ (mkLocals h ∅ ∅ [] ∅) _ Hnd Hvalid Hall)
    as (_ & _ & Hnew).
  destruct (Hnew c Hc) as [Hnil | (n & r & s0 & Hin & Hs0 & _ & Hmerged & Hobj)];
    [by apply elem_of_nil in Hnil |].
  simpl in Hs0.
  destruct (reuse_all_spec _ _ _ _ _ Hndnew Hreuse) as (_ & _ & Hre).
  destruct (Hre c Hc) as (s1 & s' & Hs1 & Hrv & Hs').
  rewrite Hobj in Hs1. injection Hs1 as <-.
  destruct (reuse_version_fields _ _ _ _ Hrv) as [v ->].
  exists n, r, s0, (with_version v
    match mi !! n with
    | Some m => with_previous_versions (all_versions m) s0
    | None => s0
    end).
  split; [done |]. split; [done |]. split; [done |]. split; [done |].
  destruct (mi !! n) as [m|] eqn:Hm.
  - apply Hmi in Hm as (r' & s & Hin' & Hs & Hinfo & Hfp).
    rewrite (NoDup_fst_eq _ _ _ _ Hnd Hin' Hin) in Hs.
    rewrite Hs0 in Hs. injection Hs as <-. rewrite Hinfo.
    rewrite bool_decide_eq_false_2 by done. done.
  - repeat split.
    destruct (existing_info_of _ !! n) as [info|] eqn:Hinfo; [| done].
    case_bool_decide as Hfp; [done |].
    assert (Hsome : mi !! n = Some info) by (apply Hmi; eauto 10).
    congruence.
Qed.

Lemma create_new_snapshot_fields_witness :
  exists d h' s',
    scenario.run = Ok (d, h') /\
    ContextDiff.new_snapshots d = [6] /\
    ContextDiff.snapshots d !! "b" = Some 6 /\
    h' !! 6 = Some s' /\
    name s' = "b" /\ fingerprint s' = scenario.fB2 /\
    previous_versions s' = [mkDataVersion scenario.fB1 "vB0"].
Proof.
  destruct scenario.run as [[d h']|e] eqn:E; [| vm_compute in E; discriminate E].
  assert (Hnd : NoDup scenario.local_snapshots.*1).
  { apply (bool_decide_unpack (NoDup _)). vm_compute. exact I. }
  assert (Hnew : ContextDiff.new_snapshots d = [6]).
  { vm_compute in E. injection E as <- _. reflexivity. }
  destruct (create_new_snapshot_fields _ _ _ _ _ _ _ Hnd E 6)
    as (n & r & s & s' & Hin & Hs & Hmerged & Hs' & Hname & Hfp & _ & _ & Hprev);
    [rewrite Hnew; set_solver |].
  exists d, h', s'. split; [reflexivity |]. split; [done |].
  assert (Hn : n = "b" /\ r = 1).
  { apply elem_of_cons in Hin as [[= -> ->] | Hin].
    - exfalso. vm_compute in E. injection E as <- _. vm_compute in Hmerged. discriminate Hmerged.
    - apply elem_of_cons in Hin as [[= -> ->] | Hin]; [done |].
      by apply elem_of_nil in Hin. }
  destruct Hn as [-> ->]. injection Hs as <-.
  split; [done |]. split; [done |]. split; [done |]. split; [done |].
  rewrite Hprev. reflexivity.
Defined.

Lemma scenario_reader_sound ids id e :
  get_snapshots scenario.reader ids id = Some e ->
  exists s, scenario.objects0 !! e = Some s /\ snapshot_id s = id.
Proof.
  simpl. case_bool_decide; [| discriminate]. unfold scenario.store. simpl.
  repeat case_bool_decide; intros [= <-]; subst id; eexists; split; reflexivity.
Qed.

(** X5.  With a state reader that returns, for an identifier, a snapshot of
    that identifier: a model is directly modified exactly when it is
    defined locally and the data hash of its local snapshot differs from
    the data hash the environment holds for its name.  A name the diff
    does not know is not directly modified. *)
Theorem create_directly_modified fresh_version environment snapshots rd h d h' :
  NoDup snapshots.*1 ->
  (forall ids id e, get_snapshots rd ids id = Some e ->
     exists s, h !! e = Some s /\ snapshot_id s = id) ->
  create fresh_version environment snapshots rd h = Ok (d, h') ->
  forall n, exists b,
    directly_modified h' d n = Ok b /\
    (b = true <->
     exists r s info,
       (n, r) ∈ snapshots /\ h !! r = Some s /\
       existing_info_of (from_option env_snapshots []
                           (resolve_environment environment rd).1) !! n = Some info /\
       data_hash (fingerprint s) <> data_hash (info_fingerprint info)).
Proof.
  intros Hnd Hsound H n.
  pose proof (create_extends _ _ _ _ _ _ _ H) as ([ext Hext] & _).
  assert (Hkeep : forall r s, h !! r = Some s -> h' !! r = Some s).
  { intros r s Hr. rewrite Hext. by apply lookup_app_l_Some. }
  destruct (create_fields _ _ _ _ _ _ _ H) as (l & Hl & Hreuse & ->).
  pose proof (merged_state_modified_dom _ _ _ _ _ Hnd Hl n) as Hdom.
  pose proof (merged_state_valid _ _ _ _ _ Hl) as Hvalid.
  pose proof (merged_state_new _ _ _ _ _ Hl) as (_ & _ & Hndnew).
  destruct (merged_state_inv _ _ _ _ _ Hnd Hl) as (mi & ids & Hmi & Hall).
  destruct (merge_all_entry _ _ _ (mkLocals h ∅ ∅ [] ∅) _ Hnd Hvalid Hall)
    as (Hout & Hitems & _).
  destruct (reuse_all_spec _ _ _ _ _ Hndnew Hreuse) as (_ & _ & Hre).
  unfold directly_modified. simpl in *.
  destruct (modified_snapshots l !! n) as [[cur old]|] eqn:Hmod.
  - destruct (decide (n ∈ snapshots.*1)) as [Hin | Hnot];
      [| destruct (Hout n Hnot) as [Hm _]; by rewrite Hmod in Hm].
    apply list_elem_of_fmap in Hin as ([n' r] & -> & Hin). simpl in *.
    destruct (Hitems _ _ Hin) as (s0 & cur' & Hs0 & Hm & _ & Hbranch).
    rewrite Hmod in Hm. destruct (mi !! n') as [m|] eqn:Hmi'; [| done].
    destruct (get_snapshots rd ids (info_snapshot_id m)) as [old'|] eqn:Hold;
      [| done].
    injection Hm as <- <-.
    destruct (Hsound _ _ _ Hold) as (so & Hso & Hido).
    assert (Hfpo : fingerprint so = info_fingerprint m) by (by injection Hido).
    pose proof Hmi' as Hm'. apply Hmi in Hm' as (r' & s & Hin' & Hs & Hinfo & Hfp).
    rewrite (NoDup_fst_eq _ _ _ _ Hnd Hin' Hin) in Hs.
    rewrite Hs0 in Hs. injection Hs as <-.
    assert (Hcur : exists sc, h' !! cur = Some sc /\ fingerprint sc = fingerprint s0).
    { destruct (get_snapshots rd ids (snapshot_id s0)) as [existing|] eqn:Hex.
      - subst cur. destruct (Hsound _ _ _ Hex) as (e & He & Hide).
        exists e. split; [by apply Hkeep |]. by injection Hide.
      - destruct Hbranch as (Hnew & _ & _ & Hobj).
        destruct (Hre cur Hnew) as (s1 & s' & Hs1 & Hrv & Hs').
        rewrite Hobj in Hs1. injection Hs1 as <-.
        destruct (reuse_version_fields _ _ _ _ Hrv) as [v ->].
        eexists. split; [exact Hs' | done]. }
    destruct Hcur as (sc & Hsc & Hfpc).
    unfold deref. rewrite Hsc, (Hkeep _ _ Hso). simpl.
    eexists. split; [reflexivity |].
    unfold data_hash_matches_snapshot. rewrite Hfpc, Hfpo.
    rewrite negb_true_iff, bool_decide_eq_false. split.
    + intros Hne. exists r, s0, m. done.
    + intros (r2 & s2 & info & Hin2 & Hs & Hinfo' & Hne).
      rewrite (NoDup_fst_eq _ _ _ _ Hnd Hin2 Hin) in Hs.
      rewrite Hs0 in Hs. injection Hs as <-. congruence.
  - exists false. split; [done |]. split; [done |].
    intros (r & s & info & Hin & Hs & Hinfo & Hne). exfalso.
    assert (Hn : n ∈ dom (modified_snapshots l)).
    { apply Hdom. exists r, s, info. repeat split; try done. congruence. }
    apply elem_of_dom in Hn as [p Hp]. congruence.
Qed.

Lemma create_directly_modified_witness :
  exists d h',
    scenario.run = Ok (d, h') /\
    directly_modified h' d "a" = Ok true /\
    directly_modified h' d "b" = Ok false /\
    directly_modified h' d "c" = Ok false.
Proof.
  destruct scenario.run as [[d h']|e] eqn:E; [| vm_compute in E; discriminate E].
  exists d, h'. split; [reflexivity |].
  assert (Hnd : NoDup scenario.local_snapshots.*1).
  { apply (bool_decide_unpack (NoDup _)). vm_compute. exact I. }
  pose proof (create_directly_modified _ _ _ _ _ _ _ Hnd scenario_reader_sound E)
    as Hdm.
  assert (Hlocal : forall n r, (n, r) ∈ scenario.local_snapshots ->
            (n = "a" /\ r = 0) \/ (n = "b" /\ r = 1)).
  { intros n r Hin. apply elem_of_cons in Hin as [[= -> ->] | Hin]; [by left |].
    apply elem_of_cons in Hin as [[= -> ->] | Hin]; [by right |].
    by apply elem_of_nil in Hin. }
  split; [| split].
  - destruct (Hdm "a") as (b & -> & Hb). f_equal. apply Hb.
    exists 0, scenario.local_a,
      (mkTableInfo "a" scenario.fA1 "dA1" [mkDataVersion scenario.fA1 "dA1"]).
    repeat split; [set_solver | discriminate].
  - destruct (Hdm "b") as (b & -> & Hb). f_equal.
    destruct b; [| done]. destruct Hb as [Hb _].
    destruct (Hb eq_refl) as (r & s & info & Hin & Hs & Hinfo & Hne).
    destruct (Hlocal _ _ Hin) as [[[=] _] | [_ ->]].
    injection Hs as <-. injection Hinfo as <-. by exfalso.
  - destruct (Hdm "c") as (b & -> & Hb). f_equal.
    destruct b; [| done]. destruct Hb as [Hb _].
    destruct (Hb eq_refl) as (r & s & info & Hin & _).
    by destruct (Hlocal _ _ Hin) as [[[=] _] | [[=] _]].
Defined.

(** X6.  On a diff returned by [create], [text_diff] fails with "`model` does
    not exist." exactly for the names that are not local snapshots, and
    is the empty string for a local model that is not modified. *)
Theorem create_text_diff fresh_version environment snapshots rd h d h'
    model_text_diff model :
  create fresh_version environment snapshots rd h = Ok (d, h') ->
  (model ∉ keys snapshots ->
     text_diff model_text_diff h' d model
       = Raise (SQLMeshError ("`" +:+ model +:+ "` does not exist."))) /\
  (model ∈ keys snapshots ->
   model ∉ dom (ContextDiff.modified_snapshots d) ->
     text_diff model_text_diff h' d model = Ok "").
Proof.
  intros H.
  destruct (create_fields _ _ _ _ _ _ _ H) as (l & Hl & _ & ->).
  apply merged_state_domains in Hl as (Hdom & _). unfold text_diff. simpl.
  rewrite Hdom. split.
  - intros Hn. by rewrite bool_decide_eq_false_2.
  - intros Hn Hm. rewrite bool_decide_eq_true_2 by done.
    apply not_elem_of_dom in Hm. by rewrite Hm.
Qed.

Lemma create_text_diff_witness :
  exists d h',
    scenario.run = Ok (d, h') /\
    text_diff (fun _ _ => "changed") h' d "c"
      = Raise (SQLMeshError "`c` does not exist.").
Proof.
  destruct scenario.run as [[d h']|e] eqn:E; [| vm_compute in E; discriminate E].
  exists d, h'. split; [reflexivity |].
  destruct (create_text_diff _ _ _ _ _ _ _ (fun _ _ => "changed") "c" E) as [Hraise _].
  apply Hraise. unfold keys. simpl. set_solver.
Defined.
End context_diff_properties.
